(** * FuzzyWordCompleter: fuzzy completion on a list of words

    A shallow embedding of [prompt_toolkit/completion/fuzzy_completer.py]
    and the properties of its matcher, its ranking and its display
    annotation.

    Text is modelled as [list ascii]; [re.IGNORECASE] folds the ASCII
    letters.  That is the behaviour of Python 2's [re] on this pattern, and
    of Python 3's on ASCII text only: Python 3 also folds letters beyond
    code point 127, which the model does not follow.  The statements whose
    truth depends on which characters are equal up to case are therefore
    made for ASCII text, [ascii_text].  The regular expression the
    completer builds has one shape only, literals separated by [.*?] inside
    a capturing group inside a lookahead, and the [re] module is modelled
    for that shape: a backtracking matcher in which [.] does not match a
    line feed and [finditer] tries every position of the subject from left
    to right. *)

From Stdlib Require Import Ascii String ZArith Lia.
From stdpp Require Import base option list gmap strings sorting.

Open Scope string_scope.
Open Scope list_scope.

(** ** Text *)

Definition str := list ascii.

(** A unicode literal. *)
Definition u (s : string) : str := list_ascii_of_string s.

Definition newline : ascii := "010"%char.

Definition is_newline (c : ascii) : bool := Ascii.eqb c newline.

(** Case folding of [re.IGNORECASE]: [A-Z] to [a-z], everything else fixed.
    On characters below 128 this is what both Python 2 and Python 3 do. *)
Definition lower (c : ascii) : ascii :=
  let n := N_of_ascii c in
  if ((65 <=? n) && (n <=? 90))%N then ascii_of_N (n + 32) else c.

(** [c.isascii()]: the code point is below 128. *)
Definition isascii (c : ascii) : bool := (N_of_ascii c <? 128)%N.

(** ASCII text, on which the folding above is that of the interpreter. *)
Definition ascii_text (s : str) : Prop := forallb isascii s = true.

(** ** The [re] module, for the patterns the completer builds *)

Module re.

(** A parsed pattern item: an escaped character, which stands for itself,
    or the lazy wildcard [.*?]. *)
Inductive item :=
| Literal (c : ascii)
| LazyAny.

(** [re.escape(c)] for a one-character string: a pattern matching [c]. *)
Definition escape (c : ascii) : list item := [Literal c].

(** [sep.join(parts)]. *)
Definition join {A} (sep : list A) (parts : list (list A)) : list A :=
  match parts with
  | [] => []
  | p :: ps => p ++ flat_map (fun x => sep ++ x) ps
  end.

(** A compiled pattern of the form [(?=(body))]. *)
Record regex := Regex {
  body : list item;
  ignorecase : bool
}.

(** [re.compile('(?=({0}))'.format(pat), flags)]. *)
Definition compile_lookahead_group (pat : list item) (IGNORECASE : bool) : regex :=
  Regex pat IGNORECASE.

Definition char_eqb (ic : bool) (c x : ascii) : bool :=
  if ic then Ascii.eqb (lower c) (lower x) else Ascii.eqb c x.

(** The backtracking matcher: [match_here ic items s] is the number of
    characters of [s] consumed by the first successful way of matching
    [items] at the head of [s].  A lazy wildcard first tries the rest of
    the pattern where it stands and only on failure consumes one more
    character, which must not be a line feed. *)
Fixpoint match_here (ic : bool) (items : list item) : str -> option nat :=
  match items with
  | [] => fun _ => Some 0
  | Literal c :: items' => fun s =>
      match s with
      | x :: s' => if char_eqb ic c x then S <$> match_here ic items' s' else None
      | [] => None
      end
  | LazyAny :: items' =>
      fix lazy (s : str) : option nat :=
        match match_here ic items' s with
        | Some n => Some n
        | None =>
            match s with
            | x :: s' => if is_newline x then None else S <$> lazy s'
            | [] => None
            end
        end
  end.

(** A match object: [m.start()] and [m.group(1)]. *)
Record match_object := Match {
  start : nat;
  group1 : str
}.

(** The lookahead consumes nothing, so [finditer] reports one match at
    every position, from [pos] to the end of the subject included, where
    the group matches. *)
Fixpoint finditer_from (r : regex) (pos : nat) (s : str) : list match_object :=
  let here :=
    match match_here (ignorecase r) (body r) s with
    | Some n => [Match pos (take n s)]
    | None => []
    end in
  match s with
  | [] => here
  | _ :: s' => here ++ finditer_from r (S pos) s'
  end.

Definition finditer (r : regex) (subject : str) : list match_object :=
  finditer_from r 0 subject.

End re.

(** ** Builtins *)

(** Python compares tuples lexicographically. *)
Definition tuple_ltb (a b : nat * nat) : bool :=
  ((a.1 <? b.1) || ((a.1 =? b.1) && (a.2 <? b.2)))%nat.

(** [min(x :: l, key=key)]: the first of the least elements. *)
Fixpoint min_from {A} (key : A -> nat * nat) (best : A) (l : list A) : A :=
  match l with
  | [] => best
  | x :: l' => min_from key (if tuple_ltb (key x) (key best) then x else best) l'
  end.

(** [sorted(l, key=key)]: a stable sort.  Each element is put in front of
    the first element of the sorted tail whose key is not smaller. *)
Fixpoint insert_by {A} (key : A -> nat * nat) (x : A) (l : list A) : list A :=
  match l with
  | [] => [x]
  | y :: l' => if tuple_ltb (key y) (key x) then y :: insert_by key x l' else x :: l
  end.

Fixpoint sorted {A} (key : A -> nat * nat) (l : list A) : list A :=
  match l with
  | [] => []
  | x :: l' => insert_by key x (sorted key l')
  end.

(** ** Objects and exceptions *)

(** What a candidate source may hold: strings, and objects that are not,
    of which integers and [None] stand for the rest. *)
Inductive pyobj :=
| PyStr (s : str)
| PyInt (n : Z)
| PyNone.

Inductive exn :=
| AssertionError
| TypeError.

(** A computation that may raise. *)
Definition raising (A : Type) : Type := exn + A.

Definition bind {A B} (x : raising A) (f : A -> raising B) : raising B :=
  match x with
  | inl e => inl e
  | inr a => f a
  end.

Notation "x <- e1 ;; e2" := (bind e1 (fun x => e2))
  (at level 100, e1 at next level, right associativity).

(** [isinstance(w, string_types)]. *)
Definition isinstance_string_types (w : pyobj) : bool :=
  match w with
  | PyStr _ => true
  | _ => false
  end.

(** ** The completer *)

(** [words]: a list of words or a callable that returns a list of words. *)
Inductive word_source :=
| WordList (l : list pyobj)
| WordCallable (f : unit -> list pyobj).

Definition callable (words : word_source) : bool :=
  match words with
  | WordCallable _ => true
  | WordList _ => false
  end.

Record FuzzyWordCompleter := {
  words : word_source;
  meta_dict : gmap str str;
  sort_results : bool;
  WORD : bool
}.

(** [_FuzzyMatch = namedtuple('_FuzzyMatch', 'match_length start_pos word')].
    Both numbers come from [len] and [m.start()]. *)
Record _FuzzyMatch := mk_FuzzyMatch {
  match_length : nat;
  start_pos : nat;
  word : str
}.

(** The display label: the word itself, or a list of [(classname, text)]. *)
Inductive formatted_text :=
| PlainText (s : str)
| Fragments (l : list (string * str)).

(** Modelled from the spec: the class [Completion], which lives in
    [prompt_toolkit.completion] outside this module.  The record holds the
    fields of the output contract, under the names of the arguments
    [get_completions] passes: the inserted text, the start position
    relative to the cursor (minus the number of characters to delete), the
    meta-information and the display label. *)
Record Completion := {
  text : str;
  start_position : Z;
  display_meta : str;
  display : formatted_text
}.

(** Modelled from the spec: the class [Document], outside this module.
    Extracting the query is the document's work; the completer only calls
    [get_word_before_cursor(WORD=...)]. *)
Record Document := {
  get_word_before_cursor : bool -> str
}.

(** [FuzzyWordCompleter.__init__].  The [all(...)] of the assertion is
    evaluated only when [words] is not callable. *)
Definition __init__ (words : word_source) (meta_dict : option (gmap str str))
    (WORD sort_results : bool) : raising FuzzyWordCompleter :=
  if callable words
     || match words with
        | WordList l => forallb isinstance_string_types l
        | WordCallable _ => false
        end
  then inr {| words := words;
              meta_dict := default ∅ meta_dict;
              sort_results := sort_results;
              WORD := WORD |}
  else inl AssertionError.

(** One step of the loop that tags the characters of the match: the state
    is [(result, characters)]. *)
Definition tag_character (st : list (string * str) * str) (c : ascii)
    : list (string * str) * str :=
  let '(result, characters) := st in
  let classname := "class:fuzzymatch.inside" in
  match characters with
  | c0 :: characters' =>
      if Ascii.eqb c c0
      then (result ++ [(classname +:+ ".character", [c])], characters')
      else (result ++ [(classname, [c])], characters)
  | [] => (result ++ [(classname, [c])], characters)
  end.

(** [FuzzyWordCompleter._get_display]. *)
Definition _get_display (m : _FuzzyMatch) (word_before_cursor : str) : formatted_text :=
  if (match_length m =? 0)%nat then PlainText (word m)
  else
    let result := [] in
    let result := result ++ [("class:fuzzymatch.outside", take (start_pos m) (word m))] in
    let characters := word_before_cursor in
    let '(result, _) :=
      fold_left tag_character
        (take (match_length m) (drop (start_pos m) (word m)))
        (result, characters) in
    let result :=
      result ++ [("class:fuzzymatch.outside",
                  drop (start_pos m + match_length m) (word m))] in
    Fragments result.

(** The key of [min]: [(m.start(), len(m.group(1)))]. *)
Definition match_key (m : re.match_object) : nat * nat :=
  (re.start m, length (re.group1 m)).

(** One turn of the matching loop.  [regex.finditer(word)] raises
    [TypeError] when [word] is not a string. *)
Definition match_word (regex : re.regex) (fuzzy_matches : list _FuzzyMatch)
    (word : pyobj) : raising (list _FuzzyMatch) :=
  match word with
  | PyStr word =>
      let matches := re.finditer regex word in
      match matches with
      | m0 :: matches' =>
          let best := min_from match_key m0 matches' in
          inr (fuzzy_matches
                 ++ [mk_FuzzyMatch (length (re.group1 best)) (re.start best) word])
      | [] => inr fuzzy_matches
      end
  | _ => inl TypeError
  end.

Definition sort_key (fuzzy_match : _FuzzyMatch) : nat * nat :=
  (start_pos fuzzy_match, match_length fuzzy_match).

(** [FuzzyWordCompleter.get_completions]: the completions it yields, in
    order, or the exception it raises. *)
Definition get_completions (self : FuzzyWordCompleter) (document : Document)
    : raising (list Completion) :=
  let words :=
    match words self with
    | WordCallable f => f tt
    | WordList l => l
    end in
  let word_before_cursor := get_word_before_cursor document (WORD self) in
  let pat := re.join [re.LazyAny] (map re.escape word_before_cursor) in
  let regex := re.compile_lookahead_group pat true in  (* re.IGNORECASE *)
  fuzzy_matches <-
    fold_left
      (fun (acc : raising (list _FuzzyMatch)) (word : pyobj) =>
         fuzzy_matches <- acc ;; match_word regex fuzzy_matches word)
      words (inr []) ;;
  let fuzzy_matches := sorted sort_key fuzzy_matches in
  inr (map (fun m =>
              let display_meta := default [] (meta_dict self !! word m) in
              {| text := word m;
                 start_position := - Z.of_nat (length word_before_cursor);
                 display_meta := display_meta;
                 display := _get_display m word_before_cursor |})
           fuzzy_matches).

(** ** Vocabulary of the specification *)

(** Equality of characters up to case. *)
Definition ieq (a b : ascii) : Prop := lower a = lower b.

(** [isubseq q w]: the characters of [q] occur in [w], in order, up to case. *)
Inductive isubseq : str -> str -> Prop :=
| isubseq_nil w : isubseq [] w
| isubseq_match c q x w : ieq c x -> isubseq q w -> isubseq (c :: q) (x :: w)
| isubseq_skip q x w : isubseq q w -> isubseq q (x :: w).

(** A decision procedure for [isubseq]: take the first occurrence each time. *)
Fixpoint isubseqb (q w : str) : bool :=
  match q, w with
  | [], _ => true
  | _ :: _, [] => false
  | c :: q', x :: w' =>
      if Ascii.eqb (lower c) (lower x) then isubseqb q' w' else isubseqb q w'
  end.

(** [word[start : start + len]]. *)
Definition slice (w : str) (start len : nat) : str := take len (drop start w).

(** [gapped q s]: every character of [q] is found in [s] in turn, up to
    case, after a gap that holds no line feed; what follows the last one is
    free. *)
Inductive gapped : str -> str -> Prop :=
| gapped_done rest : gapped [] rest
| gapped_next c q gap x rest :
    Forall (fun y => y <> newline) gap -> ieq c x -> gapped q rest ->
    gapped (c :: q) (gap ++ x :: rest).

(** [placed q s]: [s] begins with the first character of [q], up to case,
    and the other characters of [q] follow it, gapped. *)
Inductive placed : str -> str -> Prop :=
| placed_at c q x rest : ieq c x -> gapped q rest -> placed (c :: q) (x :: rest).

(** The spans the matcher chooses among. *)
Definition valid_span (q w : str) (start len : nat) : Prop :=
  placed q (slice w start len).

(** The pattern items that follow the first literal: a lazy wildcard before
    every further character of the query. *)
Definition tail_items (q : str) : list re.item :=
  flat_map (fun c => [re.LazyAny; re.Literal c]) q.

(** A span of the word in which the query occurs as a subsequence, wherever
    in the span its first character falls. *)
Definition contains_span (q w : str) (start len : nat) : Prop :=
  start + len <= length w /\ isubseq q (slice w start len).

(** The regular expression [get_completions] compiles for a query. *)
Definition query_regex (q : str) : re.regex :=
  re.compile_lookahead_group (re.join [re.LazyAny] (map re.escape q)) true.

(** What one turn of the matching loop records for a string. *)
Definition best_in (regex : re.regex) (w : str) : option _FuzzyMatch :=
  match match_word regex [] (PyStr w) with
  | inr [m] => Some m
  | _ => None
  end.

(** The matcher: the occurrence of the query recorded for a word, if any. *)
Definition find_best_occurrence (q w : str) : option _FuzzyMatch :=
  best_in (query_regex q) w.

(** The list a candidate source stands for. *)
Definition resolve (source : word_source) : list pyobj :=
  match source with
  | WordCallable f => f tt
  | WordList l => l
  end.

(** The list of candidates a request works on. *)
Definition candidates (self : FuzzyWordCompleter) : list pyobj :=
  resolve (words self).

(** The completion yielded for an occurrence. *)
Definition completion_for (self : FuzzyWordCompleter) (q : str) (m : _FuzzyMatch)
    : Completion :=
  {| text := word m;
     start_position := - Z.of_nat (length q);
     display_meta := default [] (meta_dict self !! word m);
     display := _get_display m q |}.

(** Order of the ranking keys. *)
Definition tuple_le (a b : nat * nat) : Prop :=
  (a.1 < b.1 \/ (a.1 = b.1 /\ a.2 <= b.2))%nat.

Definition key_le {A} (key : A -> nat * nat) (a b : A) : Prop :=
  tuple_le (key a) (key b).

(** The tags of the characters of a span, and the query characters left
    over, as recursive functions of the span. *)
Fixpoint tags (span characters : str) : list (string * str) :=
  match span with
  | [] => []
  | c :: span' =>
      match characters with
      | c0 :: characters' =>
          if Ascii.eqb c c0
          then ("class:fuzzymatch.inside.character", [c]) :: tags span' characters'
          else ("class:fuzzymatch.inside", [c]) :: tags span' characters
      | [] => ("class:fuzzymatch.inside", [c]) :: tags span' characters
      end
  end.

Fixpoint unconsumed (span characters : str) : str :=
  match span with
  | [] => characters
  | c :: span' =>
      match characters with
      | c0 :: characters' =>
          if Ascii.eqb c c0 then unconsumed span' characters'
          else unconsumed span' characters
      | [] => []
      end
  end.

(** The text of a display label: the texts of its fragments, concatenated. *)
Definition fragment_list_to_text (d : formatted_text) : str :=
  match d with
  | PlainText s => s
  | Fragments l => concat (map snd l)
  end.

(** The fragments tagged as query characters, and their characters. *)
Definition matched_fragments (l : list (string * str)) : list (string * str) :=
  filter (fun f => f.1 = "class:fuzzymatch.inside.character") l.

Definition matched_characters (l : list (string * str)) : str :=
  concat (map snd (matched_fragments l)).

(** [istartswith q w]: the word begins with the query, up to case. *)
Fixpoint istartswith (q w : str) : bool :=
  match q, w with
  | [], _ => true
  | _ :: _, [] => false
  | c :: q', x :: w' => Ascii.eqb (lower c) (lower x) && istartswith q' w'
  end.

(** The occurrence that stands for a match object of a word. *)
Definition occurrence_of (w : str) (m : re.match_object) : _FuzzyMatch :=
  mk_FuzzyMatch (length (re.group1 m)) (re.start m) w.

(** A text that case folding leaves as it is: no letter of [A-Z] in it. *)
Definition folded (s : str) : Prop := map lower s = s.

(** ** Examples *)

Definition example_document (q : string) : Document :=
  {| get_word_before_cursor := fun _ => u q |}.

Definition example_completer (ws : list string) : FuzzyWordCompleter :=
  {| words := WordList (map PyStr (map u ws));
     meta_dict := {[ u "cat" := u "animal" ]};
     sort_results := true;
     WORD := false |}.

(** * Properties *)

(** ** Characters *)

Lemma lower_newline x : lower x = newline -> x = newline.
Proof.
  destruct x as [[] [] [] [] [] [] [] []]; vm_compute; intros H;
    first [reflexivity | discriminate H].
Qed.

Lemma ieq_refl a : ieq a a.
Proof. reflexivity. Qed.

Lemma ieq_newline c x : ieq c x -> x <> newline -> c <> newline.
Proof.
  unfold ieq. intros H Hx ->. apply Hx, lower_newline. rewrite <- H. reflexivity.
Qed.

Lemma ieq_newline_r c x : ieq c x -> c <> newline -> x <> newline.
Proof.
  unfold ieq. intros H Hc ->. apply Hc, lower_newline. rewrite H. reflexivity.
Qed.

Lemma char_eqb_ieq c x : re.char_eqb true c x = true <-> ieq c x.
Proof. unfold re.char_eqb, ieq. apply Ascii.eqb_eq. Qed.

Lemma is_newline_true x : is_newline x = true <-> x = newline.
Proof. apply Ascii.eqb_eq. Qed.

Lemma is_newline_false x : is_newline x = false <-> x <> newline.
Proof. apply Ascii.eqb_neq. Qed.

(** ** Tuples, [min] and [sorted] *)

Lemma tuple_ltb_lt a b :
  tuple_ltb a b = true <-> (a.1 < b.1 \/ (a.1 = b.1 /\ a.2 < b.2))%nat.
Proof.
  unfold tuple_ltb.
  rewrite orb_true_iff, andb_true_iff, !Nat.ltb_lt, Nat.eqb_eq. reflexivity.
Qed.

Lemma tuple_ltb_le a b : tuple_ltb b a = false <-> tuple_le a b.
Proof.
  unfold tuple_le. rewrite <- not_true_iff_false, tuple_ltb_lt. lia.
Qed.

Lemma tuple_ltb_ne a b : tuple_ltb a b = true -> a <> b.
Proof. rewrite tuple_ltb_lt. intros H ->. lia. Qed.

Lemma tuple_le_trans a b c : tuple_le a b -> tuple_le b c -> tuple_le a c.
Proof. unfold tuple_le. lia. Qed.

Lemma tuple_le_refl a : tuple_le a a.
Proof. unfold tuple_le. lia. Qed.

Section builtins.
Context {A : Type} (key : A -> nat * nat).

Lemma min_from_elem best l : min_from key best l ∈ best :: l.
Proof.
  revert best. induction l as [|x l IH]; intros best; simpl.
  - set_solver.
  - pose proof (IH (if tuple_ltb (key x) (key best) then x else best)) as H.
    destruct (tuple_ltb (key x) (key best));
      rewrite !elem_of_cons in *; tauto.
Qed.

Lemma min_from_le_best best l : tuple_le (key (min_from key best l)) (key best).
Proof.
  revert best. induction l as [|x l IH]; intros best; simpl.
  - apply tuple_le_refl.
  - destruct (tuple_ltb (key x) (key best)) eqn:E.
    + eapply tuple_le_trans; [apply IH|].
      apply tuple_ltb_lt in E. unfold tuple_le. lia.
    + apply IH.
Qed.

Lemma min_from_least best l x :
  x ∈ best :: l -> tuple_le (key (min_from key best l)) (key x).
Proof.
  revert best. induction l as [|y l IH]; intros best Hx; simpl.
  - apply list_elem_of_singleton in Hx as ->. apply tuple_le_refl.
  - destruct (tuple_ltb (key y) (key best)) eqn:E.
    + apply elem_of_cons in Hx as [->|Hx].
      * eapply tuple_le_trans; [apply min_from_le_best|].
        apply tuple_ltb_lt in E. unfold tuple_le. lia.
      * apply IH. exact Hx.
    + apply elem_of_cons in Hx as [->|Hx].
      * apply IH. set_solver.
      * apply elem_of_cons in Hx as [->|Hx].
        -- eapply tuple_le_trans; [apply min_from_le_best|].
           apply tuple_ltb_le. exact E.
        -- apply IH. set_solver.
Qed.

Lemma insert_by_Permutation x l : insert_by key x l ≡ₚ x :: l.
Proof.
  induction l as [|y l IH]; simpl; [done|].
  destruct (tuple_ltb (key y) (key x)); [|done].
  rewrite IH. apply perm_swap.
Qed.

Lemma sorted_Permutation l : sorted key l ≡ₚ l.
Proof.
  induction l as [|x l IH]; simpl; [done|].
  rewrite insert_by_Permutation. by f_equiv.
Qed.

Lemma insert_by_sorted x l :
  StronglySorted (key_le key) l -> StronglySorted (key_le key) (insert_by key x l).
Proof.
  induction 1 as [|y l Hl IH Hy]; simpl.
  - repeat constructor.
  - destruct (tuple_ltb (key y) (key x)) eqn:E.
    + constructor; [exact IH|].
      rewrite insert_by_Permutation. constructor; [|exact Hy].
      apply tuple_ltb_lt in E. unfold key_le, tuple_le. lia.
    + apply tuple_ltb_le in E.
      constructor; [by constructor|].
      constructor; [exact E|].
      eapply Forall_impl; [exact Hy|].
      intros z Hz. eapply tuple_le_trans; [exact E|exact Hz].
Qed.

Lemma sorted_sorted l : StronglySorted (key_le key) (sorted key l).
Proof.
  induction l as [|x l IH]; simpl; [constructor|].
  by apply insert_by_sorted.
Qed.

Lemma insert_by_filter k x l :
  filter (fun y => key y = k) (insert_by key x l)
  = filter (fun y => key y = k) (x :: l).
Proof.
  induction l as [|y l IH]; simpl; [done|].
  destruct (tuple_ltb (key y) (key x)) eqn:E; [|done].
  apply tuple_ltb_ne in E.
  rewrite (filter_cons _ y), IH, !filter_cons.
  repeat case_decide; congruence.
Qed.

(** [sorted] is stable: the elements of any one key keep their order. *)
Lemma sorted_stable k l :
  filter (fun y => key y = k) (sorted key l) = filter (fun y => key y = k) l.
Proof.
  induction l as [|x l IH]; simpl; [done|].
  rewrite insert_by_filter, !filter_cons, IH. done.
Qed.

(** Sorting by key in a stable way has one result only, so [sorted] stands
    for any stable sort. *)
Lemma stable_sort_unique l1 l2 :
  StronglySorted (key_le key) l1 ->
  StronglySorted (key_le key) l2 ->
  (forall k, filter (fun y => key y = k) l1 = filter (fun y => key y = k) l2) ->
  l1 = l2.
Proof.
  intros H1. revert l2.
  induction H1 as [|x l1 Hl1 IH Hx]; intros l2 H2 Hf.
  - destruct l2 as [|y l2]; [done|].
    specialize (Hf (key y)). rewrite filter_cons_True in Hf by done.
    discriminate.
  - destruct H2 as [|y l2 Hl2 Hy].
    { specialize (Hf (key x)). rewrite filter_cons_True in Hf by done.
      discriminate. }
    assert (Hxy : key x = key y).
    { assert (x ∈ y :: l2) as Hin.
      { eapply (list_elem_of_filter (fun z => key z = key x)).
        rewrite <- Hf, filter_cons_True by done. left. }
      assert (y ∈ x :: l1) as Hin'.
      { eapply (list_elem_of_filter (fun z => key z = key y)).
        rewrite Hf, filter_cons_True by done. left. }
      assert (tuple_le (key y) (key x)) as Hle.
      { apply elem_of_cons in Hin as [->|Hin]; [apply tuple_le_refl|].
        by apply (proj1 (Forall_forall _ _) Hy). }
      assert (tuple_le (key x) (key y)) as Hle'.
      { apply elem_of_cons in Hin' as [->|Hin']; [apply tuple_le_refl|].
        by apply (proj1 (Forall_forall _ _) Hx). }
      unfold tuple_le in *. destruct (key x), (key y). simpl in *.
      f_equal; lia. }
    pose proof (Hf (key x)) as Hk.
    rewrite !filter_cons_True in Hk by done. injection Hk as <- Hk.
    f_equal. apply IH; [done|]. intros k.
    destruct (decide (key x = k)) as [<-|Hne]; [done|].
    specialize (Hf k). by rewrite !filter_cons_False in Hf.
Qed.

(** A list that is already in order is left as it is. *)
Lemma sorted_id l : StronglySorted (key_le key) l -> sorted key l = l.
Proof.
  induction 1 as [|x l Hl IH Hx]; simpl; [done|].
  rewrite IH. destruct Hx as [|y l' Hy _]; simpl; [done|].
  apply tuple_ltb_le in Hy. by rewrite Hy.
Qed.
End builtins.

(** ** The backtracking matcher *)

Lemma match_here_literal ic c items s :
  re.match_here ic (re.Literal c :: items) s
  = match s with
    | x :: s' =>
        if re.char_eqb ic c x then S <$> re.match_here ic items s' else None
    | [] => None
    end.
Proof. reflexivity. Qed.

Lemma match_here_lazy ic items s :
  re.match_here ic (re.LazyAny :: items) s
  = match re.match_here ic items s with
    | Some n => Some n
    | None =>
        match s with
        | x :: s' =>
            if is_newline x then None
            else S <$> re.match_here ic (re.LazyAny :: items) s'
        | [] => None
        end
    end.
Proof. destruct s; reflexivity. Qed.

Lemma join_escape c q :
  re.join [re.LazyAny] (map re.escape (c :: q)) = re.Literal c :: tail_items q.
Proof.
  unfold re.join, tail_items. simpl. f_equal.
  induction q as [|d q IH]; simpl; [done|]. by rewrite IH.
Qed.

(** *** Gapped placements *)

Lemma gapped_app_r q s t : gapped q s -> gapped q (s ++ t).
Proof.
  induction 1 as [rest|c q gap x rest Hgap Hx _ IH]; [constructor|].
  rewrite <- app_assoc. simpl. by constructor.
Qed.

Lemma gapped_take q n s : gapped q (take n s) -> gapped q s.
Proof. intros H. rewrite <- (take_drop n s). by apply gapped_app_r. Qed.

Lemma gapped_skip q x s : x <> newline -> gapped q s -> gapped q (x :: s).
Proof.
  intros Hx [rest|c q' gap y rest Hgap Hy Hrest]; [constructor|].
  change (gapped (c :: q') ((x :: gap) ++ y :: rest)).
  constructor; [by constructor|done|done].
Qed.

Lemma gapped_here c q x s : ieq c x -> gapped q s -> gapped (c :: q) (x :: s).
Proof. intros Hx Hs. by apply (gapped_next c q [] x s). Qed.

Lemma gapped_inv c q s :
  gapped (c :: q) s ->
  exists gap y rest,
    s = gap ++ y :: rest /\ Forall (fun z => z <> newline) gap
    /\ ieq c y /\ gapped q rest.
Proof.
  intros H. remember (c :: q) as cq eqn:E.
  destruct H as [|c' q' gap y rest Hgap Hy Hrest]; [discriminate|].
  injection E as -> ->. by exists gap, y, rest.
Qed.

Lemma gapped_cons_inv c q x s :
  gapped (c :: q) (x :: s) ->
  (ieq c x /\ gapped q s) \/ (x <> newline /\ gapped (c :: q) s).
Proof.
  intros H. apply gapped_inv in H as (gap & y & rest & Hs & Hgap & Hy & Hrest).
  destruct gap as [|g gap]; simpl in Hs; injection Hs as -> ->.
  - by left.
  - right. apply Forall_cons in Hgap as [Hg Hgap]. split; [done|].
    by constructor.
Qed.

Lemma gapped_nil_inv c q : ~ gapped (c :: q) [].
Proof.
  intros H. apply gapped_inv in H as (gap & y & rest & Hs & _).
  by destruct gap.
Qed.

(** Dropping the first character of the query keeps a placement, provided
    that character is not a line feed: its match joins the next gap. *)
Lemma gapped_drop_first c q s : c <> newline -> gapped (c :: q) s -> gapped q s.
Proof.
  intros Hc H. apply gapped_inv in H as (gap & y & rest & -> & Hgap & Hy & Hrest).
  assert (Hy' : y <> newline) by eauto using ieq_newline_r.
  induction gap as [|g gap IH]; simpl.
  - by apply gapped_skip.
  - apply Forall_cons in Hgap as [Hg Hgap]. apply gapped_skip; auto.
Qed.

(** *** What [match_here] computes *)

(** After the first literal: the length of the shortest prefix of the
    subject in which the rest of the query is placed, or nothing when there
    is no placement at all. *)
Lemma match_here_tail q s :
  match re.match_here true (tail_items q) s with
  | Some n =>
      n <= length s /\ gapped q (take n s)
      /\ forall n', gapped q (take n' s) -> n <= n'
  | None => ~ gapped q s
  end.
Proof.
  revert s. induction q as [|c q IHq]; intros s.
  { simpl. split; [lia|]. split; [rewrite take_0; constructor|lia]. }
  change (tail_items (c :: q))
    with (re.LazyAny :: re.Literal c :: tail_items q).
  induction s as [|x s IHs]; rewrite match_here_lazy, match_here_literal.
  { apply gapped_nil_inv. }
  assert (Hmin0 : forall n', gapped (c :: q) (take n' (x :: s)) ->
            exists n'', n' = S n'').
  { intros [|n'] H; [|eauto]. rewrite take_0 in H. by apply gapped_nil_inv in H. }
  specialize (IHq s). revert IHq IHs.
  generalize (re.match_here true (tail_items q) s) as rq.
  generalize
    (re.match_here true (re.LazyAny :: re.Literal c :: tail_items q) s) as rs.
  intros rs rq IHq IHs.
  destruct (re.char_eqb true c x) eqn:Ecx.
  - apply char_eqb_ieq in Ecx.
    destruct rq as [n|]; simpl.
    + destruct IHq as (Hn & Hg & Hmin).
      split; [lia|]. split; [by apply gapped_here|].
      intros n' H. destruct (Hmin0 n' H) as [n'' ->]. simpl in H.
      apply gapped_cons_inv in H as [[_ H]|[Hx H]].
      * apply Hmin in H. lia.
      * apply gapped_drop_first in H; [|eauto using ieq_newline].
        apply Hmin in H. lia.
    + destruct (is_newline x) eqn:Ex.
      * apply is_newline_true in Ex.
        intros H. apply gapped_cons_inv in H as [[_ H]|[Hx H]]; tauto.
      * apply is_newline_false in Ex.
        destruct rs as [n|]; simpl.
        -- destruct IHs as (Hn & Hg & Hmin).
           split; [lia|]. split; [by apply gapped_skip|].
           intros n' H. destruct (Hmin0 n' H) as [n'' ->]. simpl in H.
           apply gapped_cons_inv in H as [[_ H]|[_ H]].
           ++ apply gapped_take in H. tauto.
           ++ apply Hmin in H. lia.
        -- intros H. apply gapped_cons_inv in H as [[_ H]|[_ H]]; tauto.
  - assert (Hcx : ~ ieq c x).
    { rewrite <- char_eqb_ieq, Ecx. discriminate. }
    destruct (is_newline x) eqn:Ex.
    + apply is_newline_true in Ex.
      intros H. apply gapped_cons_inv in H as [[H _]|[Hx H]]; tauto.
    + apply is_newline_false in Ex.
      destruct rs as [n|]; simpl.
      * destruct IHs as (Hn & Hg & Hmin).
        split; [lia|]. split; [by apply gapped_skip|].
        intros n' H. destruct (Hmin0 n' H) as [n'' ->]. simpl in H.
        apply gapped_cons_inv in H as [[H _]|[_ H]]; [tauto|].
        apply Hmin in H. lia.
      * intros H. apply gapped_cons_inv in H as [[H _]|[_ H]]; tauto.
Qed.

Lemma placed_inv c q s :
  placed (c :: q) s -> exists x rest, s = x :: rest /\ ieq c x /\ gapped q rest.
Proof.
  intros H. remember (c :: q) as cq eqn:E.
  destruct H as [c' q' x rest Hx Hrest]. injection E as -> ->. eauto.
Qed.

Lemma placed_nil_inv s : ~ placed [] s.
Proof. intros H. inversion H. Qed.

Lemma placed_take q n s : placed q (take n s) -> placed q s.
Proof.
  intros H. remember (take n s) as t eqn:E.
  destruct H as [c q x rest Hx Hrest].
  destruct n as [|n], s as [|y s]; simpl in E; try discriminate.
  injection E as -> ->. constructor; [done|]. by apply gapped_take in Hrest.
Qed.

(** The whole group at the head of the subject: the length of the shortest
    prefix in which the query is placed. *)
Lemma match_here_head c q s :
  match re.match_here true (re.Literal c :: tail_items q) s with
  | Some n =>
      n <= length s /\ placed (c :: q) (take n s)
      /\ forall n', placed (c :: q) (take n' s) -> n <= n'
  | None => ~ placed (c :: q) s
  end.
Proof.
  rewrite match_here_literal. destruct s as [|x s].
  { intros H. apply placed_inv in H as (?&?&?&_). discriminate. }
  destruct (re.char_eqb true c x) eqn:Ecx.
  - apply char_eqb_ieq in Ecx.
    pose proof (match_here_tail q s) as Hq.
    destruct (re.match_here true (tail_items q) s) as [n|]; simpl.
    + destruct Hq as (Hn & Hg & Hmin).
      split; [lia|]. split; [by constructor|].
      intros [|n'] H; simpl in H.
      { apply placed_inv in H as (?&?&?&_). discriminate. }
      apply placed_inv in H as (y & rest & E & _ & H). injection E as <- <-.
      apply Hmin in H. lia.
    + intros H. apply placed_inv in H as (y & rest & E & _ & H).
      injection E as <- <-. tauto.
  - intros H. apply placed_inv in H as (y & rest & E & H & _).
    injection E as <- <-. apply char_eqb_ieq in H. congruence.
Qed.

(** ** [finditer] *)

Lemma elem_of_finditer_from r pos s m :
  m ∈ re.finditer_from r pos s <->
  exists i n,
    i <= length s
    /\ re.match_here (re.ignorecase r) (re.body r) (drop i s) = Some n
    /\ m = re.Match (pos + i) (take n (drop i s)).
Proof.
  revert pos. induction s as [|x s IH]; intros pos; simpl.
  - split.
    + intros H. exists 0.
      destruct (re.match_here (re.ignorecase r) (re.body r) []) as [n|] eqn:E;
        [|by apply elem_of_nil in H].
      apply list_elem_of_singleton in H as ->. exists n.
      rewrite Nat.add_0_r. simpl. auto.
    + intros (i & n & Hi & Hm & ->).
      assert (i = 0) as -> by lia. rewrite Nat.add_0_r. simpl in Hm |- *.
      rewrite Hm. by apply list_elem_of_singleton.
  - rewrite elem_of_app, IH. split.
    + intros [H|(i & n & Hi & Hm & ->)].
      * exists 0.
        destruct (re.match_here (re.ignorecase r) (re.body r) (x :: s))
          as [n|] eqn:E; [|by apply elem_of_nil in H].
        apply list_elem_of_singleton in H as ->. exists n.
        rewrite Nat.add_0_r. split; [lia|]. auto.
      * exists (S i), n. split; [lia|]. split; [done|].
        f_equal. lia.
    + intros ([|i] & n & Hi & Hm & ->).
      * left. simpl in Hm. rewrite Hm, Nat.add_0_r.
        by apply list_elem_of_singleton.
      * right. exists i, n. split; [lia|]. split; [done|].
        f_equal. lia.
Qed.

Lemma elem_of_finditer r w m :
  m ∈ re.finditer r w <->
  exists i n,
    i <= length w
    /\ re.match_here (re.ignorecase r) (re.body r) (drop i w) = Some n
    /\ m = re.Match i (take n (drop i w)).
Proof. unfold re.finditer. by rewrite elem_of_finditer_from. Qed.

(** ** The matcher *)

Lemma best_in_unfold regex w :
  best_in regex w
  = match re.finditer regex w with
    | [] => None
    | m0 :: matches =>
        let best := min_from match_key m0 matches in
        Some (mk_FuzzyMatch (length (re.group1 best)) (re.start best) w)
    end.
Proof.
  unfold best_in, match_word. by destruct (re.finditer regex w).
Qed.

Lemma match_word_str regex acc w :
  match_word regex acc (PyStr w) = inr (acc ++ option_list (best_in regex w)).
Proof.
  rewrite best_in_unfold. unfold match_word.
  destruct (re.finditer regex w); simpl; by rewrite ?app_nil_r.
Qed.

(** The group matches at position [s] of [w] exactly when some span that
    starts there is valid, and then it captures the shortest one. *)
Lemma query_match_at c q w s :
  match re.match_here true (re.body (query_regex (c :: q))) (drop s w) with
  | Some n =>
      s + n <= length w /\ s < length w /\ valid_span (c :: q) w s n
      /\ forall l, valid_span (c :: q) w s l -> n <= l
  | None => forall l, ~ valid_span (c :: q) w s l
  end.
Proof.
  unfold query_regex, re.compile_lookahead_group, valid_span, slice.
  cbn [re.body]. rewrite join_escape.
  pose proof (match_here_head c q (drop s w)) as H.
  destruct (re.match_here true (re.Literal c :: tail_items q) (drop s w))
    as [n|].
  - destruct H as (Hn & Hp & Hmin). rewrite length_drop in Hn.
    assert (s < length w).
    { destruct (decide (s < length w)) as [|Hs]; [done|].
      rewrite drop_ge in Hp by lia. rewrite take_nil in Hp.
      apply placed_inv in Hp as (?&?&?&_). discriminate. }
    repeat split; [lia|done|done|done].
  - intros l Hl. by apply placed_take in Hl.
Qed.

(** The occurrence recorded for a word is the least valid span in the order
    "earlier start first, then shorter"; nothing is recorded exactly when no
    span is valid. *)
Lemma find_best_occurrence_least q w :
  q <> [] ->
  match find_best_occurrence q w with
  | Some m =>
      word m = w
      /\ start_pos m + match_length m <= length w
      /\ valid_span q w (start_pos m) (match_length m)
      /\ forall s l, valid_span q w s l ->
           start_pos m < s \/ (start_pos m = s /\ match_length m <= l)
  | None => forall s l, ~ valid_span q w s l
  end.
Proof.
  destruct q as [|c q]; [done|]. intros _.
  unfold find_best_occurrence. rewrite best_in_unfold.
  assert (Hvalid : forall s l, valid_span (c :: q) w s l ->
            exists n, n <= l /\ s + n <= length w
              /\ re.Match s (slice w s n) ∈ re.finditer (query_regex (c :: q)) w).
  { intros s l Hl. pose proof (query_match_at c q w s) as H.
    destruct (re.match_here true (re.body (query_regex (c :: q))) (drop s w))
      as [n|] eqn:En; [|by apply H in Hl].
    destruct H as (Hn & Hs & _ & Hmin). exists n.
    split; [by apply Hmin|]. split; [done|].
    apply elem_of_finditer. exists s, n. split; [lia|]. by split. }
  destruct (re.finditer (query_regex (c :: q)) w) as [|m0 matches] eqn:E.
  { intros s l Hl. apply Hvalid in Hl as (n & _ & _ & Hin).
    by apply elem_of_nil in Hin. }
  cbn zeta. cbn [word start_pos match_length].
  pose proof (min_from_elem match_key m0 matches) as Hbest.
  pose proof (min_from_least match_key m0 matches) as Hleast.
  set (best := min_from match_key m0 matches) in *.
  rewrite <- E in Hbest.
  apply elem_of_finditer in Hbest as (i & n & Hi & Hm & Hbest).
  pose proof (query_match_at c q w i) as H. cbn [re.ignorecase query_regex
    re.compile_lookahead_group] in Hm. rewrite Hm in H.
  destruct H as (Hn & Hlt & Hv & Hmin).
  assert (Hlen : length (re.group1 best) = n).
  { rewrite Hbest. cbn [re.group1]. rewrite length_take, length_drop. lia. }
  rewrite Hlen, Hbest. cbn [re.start].
  split; [done|]. split; [done|]. split; [done|].
  intros s l Hl. apply Hvalid in Hl as (n' & Hn' & Hb' & Hin).
  apply Hleast in Hin. unfold tuple_le, match_key in Hin.
  rewrite Hlen in Hin. rewrite Hbest in Hin. cbn [re.start re.group1 fst snd] in Hin.
  unfold slice in Hin. rewrite length_take, length_drop in Hin. lia.
Qed.

(** ** Subsequences *)

Lemma isubseq_tail c q w : isubseq (c :: q) w -> isubseq q w.
Proof.
  intros H. remember (c :: q) as cq eqn:E. revert c q E.
  induction H as [w|c' q' x w Hx H IH|q' x w H IH]; intros c q E.
  - discriminate.
  - injection E as -> ->. by constructor.
  - constructor. by eapply IH.
Qed.

Lemma isubseq_cons_inv c q x w :
  isubseq (c :: q) (x :: w) ->
  (ieq c x /\ isubseq q w) \/ isubseq (c :: q) w.
Proof. intros H. inversion H; subst; auto. Qed.

Lemma isubseq_nil_inv c q : ~ isubseq (c :: q) [].
Proof. intros H. inversion H. Qed.

Lemma isubseq_app_l q v w : isubseq q w -> isubseq q (v ++ w).
Proof. intros H. induction v; simpl; [done|by constructor]. Qed.

Lemma isubseq_app_r q w v : isubseq q w -> isubseq q (w ++ v).
Proof. induction 1; simpl; by constructor. Qed.

Lemma isubseq_slice q w s l : isubseq q (slice w s l) -> isubseq q w.
Proof.
  unfold slice. intros H.
  rewrite <- (take_drop s w), <- (take_drop l (drop s w)).
  by apply isubseq_app_l, isubseq_app_r.
Qed.

Lemma isubseqb_spec q w : isubseqb q w = true <-> isubseq q w.
Proof.
  revert q. induction w as [|x w IH]; intros [|c q]; simpl.
  - split; [constructor|done].
  - split; [done|]. intros H. by apply isubseq_nil_inv in H.
  - split; [constructor|done].
  - destruct (Ascii.eqb (lower c) (lower x)) eqn:E.
    + apply Ascii.eqb_eq in E. rewrite IH. split.
      * by constructor.
      * intros H. apply isubseq_cons_inv in H as [[_ H]|H]; [done|].
        by apply isubseq_tail in H.
    + apply Ascii.eqb_neq in E. rewrite IH. split.
      * by constructor.
      * intros H. by apply isubseq_cons_inv in H as [[H _]|H].
Qed.

Lemma gapped_isubseq q s : gapped q s -> isubseq q s.
Proof.
  induction 1 as [rest|c q gap x rest Hgap Hx _ IH]; [constructor|].
  apply isubseq_app_l. by constructor.
Qed.

Lemma placed_isubseq q s : placed q s -> isubseq q s.
Proof.
  destruct 1 as [c q x rest Hx Hrest]. constructor; [done|].
  by apply gapped_isubseq.
Qed.

(** In a text without line feeds every occurrence as a subsequence is a
    gapped placement. *)
Lemma isubseq_gapped q w :
  Forall (fun y => y <> newline) w -> isubseq q w -> gapped q w.
Proof.
  intros Hw H. induction H as [w|c q x w Hx H IH|q x w H IH].
  - constructor.
  - apply Forall_cons in Hw as [_ Hw]. apply gapped_here; auto.
  - apply Forall_cons in Hw as [Hx Hw]. apply gapped_skip; auto.
Qed.

Lemma isubseq_valid_span q w :
  q <> [] -> Forall (fun y => y <> newline) w -> isubseq q w ->
  exists s l, valid_span q w s l.
Proof.
  intros Hq Hw H. induction H as [w|c q x w Hx H _|q x w H IH].
  - done.
  - exists 0, (length (x :: w)). unfold valid_span, slice.
    rewrite drop_0, firstn_all. apply Forall_cons in Hw as [_ Hw].
    constructor; [done|]. by apply isubseq_gapped.
  - apply Forall_cons in Hw as [_ Hw].
    destruct (IH Hq Hw) as (s & l & Hv). by exists (S s), l.
Qed.

Lemma valid_span_isubseq q w s l :
  valid_span q w s l -> isubseq q (slice w s l).
Proof. apply placed_isubseq. Qed.

(** ** The matching loop and the completions of a request *)

Lemma match_words_raised regex e ws :
  fold_left
    (fun (acc : raising (list _FuzzyMatch)) (word : pyobj) =>
       fuzzy_matches <- acc ;; match_word regex fuzzy_matches word)
    ws (inl e) = inl e.
Proof. induction ws as [|w ws IH]; simpl; [done|exact IH]. Qed.

Lemma match_words_str regex ws acc :
  fold_left
    (fun (acc : raising (list _FuzzyMatch)) (word : pyobj) =>
       fuzzy_matches <- acc ;; match_word regex fuzzy_matches word)
    (map PyStr ws) (inr acc)
  = inr (acc ++ omap (best_in regex) ws).
Proof.
  revert acc. induction ws as [|w ws IH]; intros acc; cbn [fold_left bind map omap].
  - by rewrite app_nil_r.
  - rewrite match_word_str, IH, <- app_assoc. simpl.
    by destruct (best_in regex w).
Qed.

Lemma match_words_not_str regex ws acc :
  Exists (fun w => isinstance_string_types w = false) ws ->
  fold_left
    (fun (acc : raising (list _FuzzyMatch)) (word : pyobj) =>
       fuzzy_matches <- acc ;; match_word regex fuzzy_matches word)
    ws (inr acc)
  = inl TypeError.
Proof.
  intros H. revert acc.
  induction H as [w ws Hw|w ws H IH]; intros acc; cbn [fold_left bind].
  - destruct w; try discriminate; apply match_words_raised.
  - destruct w as [s| |]; try apply match_words_raised.
    rewrite match_word_str. apply IH.
Qed.

(** A request over strings raises nothing: it yields one completion for
    every occurrence found, the occurrences taken in candidate order and
    then sorted. *)
Lemma get_completions_str self document ws :
  candidates self = map PyStr ws ->
  let q := get_word_before_cursor document (WORD self) in
  get_completions self document
  = inr (map (completion_for self q)
           (sorted sort_key (omap (find_best_occurrence q) ws))).
Proof.
  intros Hws q. unfold get_completions.
  change (match words self with WordCallable f => f tt | WordList l => l end)
    with (candidates self). rewrite Hws.
  fold q. fold (query_regex q). rewrite match_words_str. reflexivity.
Qed.

Lemma get_completions_not_str self document :
  Exists (fun w => isinstance_string_types w = false) (candidates self) ->
  get_completions self document = inl TypeError.
Proof.
  intros H. unfold get_completions.
  change (match words self with WordCallable f => f tt | WordList l => l end)
    with (candidates self).
  cbv zeta. by rewrite match_words_not_str.
Qed.

(** ** The display label *)

Lemma fold_tag_character span result characters :
  fold_left tag_character span (result, characters)
  = (result ++ tags span characters, unconsumed span characters).
Proof.
  revert result characters.
  induction span as [|c span IH]; intros result characters; simpl.
  - by rewrite app_nil_r.
  - destruct characters as [|c0 characters].
    + rewrite IH, <- app_assoc. f_equal. by destruct span.
    + destruct (Ascii.eqb c c0); by rewrite IH, <- app_assoc.
Qed.

Lemma get_display_fragments m q :
  match_length m <> 0 ->
  _get_display m q
  = Fragments
      (("class:fuzzymatch.outside", take (start_pos m) (word m))
       :: tags (slice (word m) (start_pos m) (match_length m)) q
       ++ [("class:fuzzymatch.outside",
            drop (start_pos m + match_length m) (word m))]).
Proof.
  intros Hl. unfold _get_display.
  apply Nat.eqb_neq in Hl. rewrite Hl.
  rewrite fold_tag_character. reflexivity.
Qed.

Lemma tags_text span characters : concat (map snd (tags span characters)) = span.
Proof.
  revert characters. induction span as [|c span IH]; intros characters; simpl.
  - done.
  - destruct characters as [|c0 characters]; [|destruct (Ascii.eqb c c0)];
      simpl; by rewrite IH.
Qed.

Lemma tags_classes span characters :
  Forall (fun f => f.1 = "class:fuzzymatch.inside"
                   \/ f.1 = "class:fuzzymatch.inside.character")
    (tags span characters).
Proof.
  revert characters. induction span as [|c span IH]; intros characters; simpl.
  - constructor.
  - destruct characters as [|c0 characters]; [|destruct (Ascii.eqb c c0)];
      constructor; simpl; auto.
Qed.

(** The tagged characters, followed by the characters left over, are the
    query: a character is tagged when it is the next one of the query,
    compared exactly, and the query moves on only then. *)
Lemma tags_matched span characters :
  matched_characters (tags span characters) ++ unconsumed span characters
  = characters.
Proof.
  revert characters. induction span as [|c span IH]; intros characters; simpl.
  - done.
  - unfold matched_characters, matched_fragments in *.
    destruct characters as [|c0 characters].
    + rewrite filter_cons_False by (simpl; discriminate).
      rewrite app_nil_r. specialize (IH []).
      by apply app_eq_nil in IH as [-> _].
    + destruct (Ascii.eqb c c0) eqn:E.
      * apply Ascii.eqb_eq in E as ->.
        rewrite filter_cons_True by done. simpl. by rewrite IH.
      * rewrite filter_cons_False by (simpl; discriminate). apply IH.
Qed.

Lemma tags_matched_prefix span characters :
  matched_characters (tags span characters) `prefix_of` characters.
Proof.
  exists (unconsumed span characters). symmetry. apply tags_matched.
Qed.

Lemma tags_matched_length span characters :
  length (matched_fragments (tags span characters)) <= length characters.
Proof.
  revert characters. induction span as [|c span IH]; intros characters; simpl.
  - unfold matched_fragments. simpl. lia.
  - unfold matched_fragments in *.
    destruct characters as [|c0 characters].
    + rewrite filter_cons_False by (simpl; discriminate). apply IH.
    + destruct (Ascii.eqb c c0) eqn:E.
      * rewrite filter_cons_True by done. simpl.
        specialize (IH characters). lia.
      * rewrite filter_cons_False by (simpl; discriminate).
        apply (IH (c0 :: characters)).
Qed.

Lemma get_display_text m q : fragment_list_to_text (_get_display m q) = word m.
Proof.
  destruct (decide (match_length m = 0)) as [E|E].
  - unfold _get_display. by rewrite E.
  - rewrite get_display_fragments by done. unfold fragment_list_to_text, slice.
    rewrite map_cons, map_app, concat_cons, concat_app, tags_text. simpl.
    rewrite app_nil_r, <- drop_drop, take_drop. apply take_drop.
Qed.

Lemma find_best_occurrence_word q w m :
  find_best_occurrence q w = Some m -> word m = w.
Proof.
  unfold find_best_occurrence. rewrite best_in_unfold.
  destruct (re.finditer (query_regex q) w); [done|]. by intros [= <-].
Qed.

Lemma find_best_occurrence_isubseq q w m :
  q <> [] -> find_best_occurrence q w = Some m ->
  contains_span q w (start_pos m) (match_length m).
Proof.
  intros Hq E. pose proof (find_best_occurrence_least q w Hq) as H.
  rewrite E in H. destruct H as (_ & Hb & Hv & _).
  split; [done|]. by apply valid_span_isubseq.
Qed.

Lemma find_best_occurrence_none q w :
  ~ isubseq q w -> find_best_occurrence q w = None.
Proof.
  intros Hn. destruct q as [|c q]; [destruct Hn; constructor|].
  destruct (find_best_occurrence (c :: q) w) as [m|] eqn:E; [|done].
  apply find_best_occurrence_isubseq in E as [_ H]; [|done].
  destruct Hn. by eapply isubseq_slice.
Qed.

Lemma find_best_occurrence_empty w :
  find_best_occurrence [] w = Some (mk_FuzzyMatch 0 0 w).
Proof.
  unfold find_best_occurrence. rewrite best_in_unfold.
  assert (Hin : re.Match 0 [] ∈ re.finditer (query_regex []) w).
  { apply elem_of_finditer. exists 0, 0. split; [lia|]. by split. }
  destruct (re.finditer (query_regex []) w) as [|m0 matches].
  { by apply elem_of_nil in Hin. }
  apply (min_from_least match_key) in Hin. cbn zeta.
  destruct (min_from match_key m0 matches) as [i g].
  unfold tuple_le, match_key in Hin. cbn [re.start re.group1 fst snd] in *.
  simpl in Hin. assert (i = 0) as -> by lia.
  assert (length g = 0) as -> by lia. done.
Qed.

(** [get_completions] never reads [sort_results]. *)
Lemma get_completions_ignores_sort_results self document b :
  get_completions
    {| words := words self; meta_dict := meta_dict self;
       sort_results := b; WORD := WORD self |} document
  = get_completions self document.
Proof. reflexivity. Qed.

(** For the empty query a request over strings yields every candidate, in
    candidate order, with the word itself as display label. *)
Lemma get_completions_empty_query self document ws :
  candidates self = map PyStr ws ->
  get_word_before_cursor document (WORD self) = [] ->
  get_completions self document
  = inr (map (fun w => {| text := w;
                          start_position := 0;
                          display_meta := default [] (meta_dict self !! w);
                          display := PlainText w |}) ws).
Proof.
  intros Hws Hq. rewrite (get_completions_str self document ws Hws), Hq.
  assert (E : omap (find_best_occurrence []) ws = map (mk_FuzzyMatch 0 0) ws).
  { clear. induction ws as [|w ws IH]; [done|]. cbn [omap list_omap map].
    rewrite find_best_occurrence_empty. f_equal. apply IH. }
  rewrite E, sorted_id, map_map; [done|].
  clear. induction ws as [|w ws IH]; simpl; constructor; [done|].
  apply Forall_forall. intros m Hm.
  apply list_elem_of_fmap in Hm as (w' & -> & _).
  unfold key_le, tuple_le, sort_key. simpl. lia.
Qed.

(** ** The docstring's example and the scenarios of the specification *)

Example oar_completions :
  (map text <$>
     match get_completions
             (example_completer ["leopard"; "gorilla"; "dinosaur"; "cat"; "bee"])
             (example_document "oar") with
     | inr cs => Some cs
     | inl _ => None
     end)
  = Some [u "leopard"; u "dinosaur"].
Proof. reflexivity. Qed.

Example aab_display :
  find_best_occurrence (u "aa") (u "aab") = Some (mk_FuzzyMatch 2 0 (u "aab"))
  /\ _get_display (mk_FuzzyMatch 2 0 (u "aab")) (u "aa")
     = Fragments [("class:fuzzymatch.outside", []);
                  ("class:fuzzymatch.inside.character", u "a");
                  ("class:fuzzymatch.inside.character", u "a");
                  ("class:fuzzymatch.outside", u "b")].
Proof. split; reflexivity. Qed.

Example xx_no_completion :
  get_completions (example_completer ["xx"]) (example_document "y") = inr [].
Proof. reflexivity. Qed.

Example cat_dog_meta :
  get_completions (example_completer ["cat"; "dog"]) (example_document "")
  = inr [ {| text := u "cat"; start_position := 0;
             display_meta := u "animal"; display := PlainText (u "cat") |};
          {| text := u "dog"; start_position := 0;
             display_meta := []; display := PlainText (u "dog") |} ].
Proof. reflexivity. Qed.

(** * The specification's properties *)

(** C1, as amended.  On ASCII text: for a non-empty query, call a span of
    the word valid when it begins with the first character of the query (up
    to case) and the other characters of the query follow in order, each
    after a gap that holds no line feed.  If the matcher records an occurrence for the word,
    its span lies inside the word, is valid, contains the query as a
    subsequence, and no valid span starts earlier or, starting at the same
    place, is shorter.  If the matcher records nothing, no span is valid,
    and when the word has no line feed the query is not a subsequence of
    it. *)
Theorem find_best_occurrence_spec q w :
  ascii_text q ->
  ascii_text w ->
  q <> [] ->
  match find_best_occurrence q w with
  | Some m =>
      word m = w
      /\ valid_span q w (start_pos m) (match_length m)
      /\ contains_span q w (start_pos m) (match_length m)
      /\ forall s l, valid_span q w s l ->
           start_pos m < s \/ (start_pos m = s /\ match_length m <= l)
  | None =>
      (forall s l, ~ valid_span q w s l)
      /\ (Forall (fun y => y <> newline) w -> ~ isubseq q w)
  end.
Proof.
  intros _ _ Hq. pose proof (find_best_occurrence_least q w Hq) as H.
  destruct (find_best_occurrence q w) as [m|] eqn:E.
  - destruct H as (Hw & Hb & Hv & Hmin).
    split; [done|]. split; [done|].
    split; [by apply find_best_occurrence_isubseq|done].
  - split; [done|]. intros Hnl Hsub.
    destruct (isubseq_valid_span q w Hq Hnl Hsub) as (s & l & Hv).
    by apply H in Hv.
Qed.

Lemma find_best_occurrence_spec_witness :
  ascii_text (u "oar")
  /\ ascii_text (u "leopard")
  /\ u "oar" <> []
  /\ exists m,
       find_best_occurrence (u "oar") (u "leopard") = Some m
       /\ start_pos m = 2 /\ match_length m = 4
       /\ valid_span (u "oar") (u "leopard") (start_pos m) (match_length m)
       /\ forall s l, valid_span (u "oar") (u "leopard") s l ->
            start_pos m < s \/ (start_pos m = s /\ match_length m <= l).
Proof.
  assert (Hq : u "oar" <> []) by discriminate.
  split; [reflexivity|]. split; [reflexivity|]. split; [exact Hq|].
  assert (E : find_best_occurrence (u "oar") (u "leopard")
              = Some (mk_FuzzyMatch 4 2 (u "leopard"))) by reflexivity.
  pose proof (find_best_occurrence_spec (u "oar") (u "leopard")
                eq_refl eq_refl Hq) as H.
  rewrite E in H. destruct H as (_ & Hv & _ & Hmin).
  eexists. split; [exact E|]. split; [reflexivity|]. split; [reflexivity|].
  split; [exact Hv|exact Hmin].
Defined.

(** C1 as stated fails.  In "xab" the matcher records the span "ab" at
    offset 1 for the query "ab", although the span "xab" at offset 0 also
    contains the query as a subsequence.  In the three characters "a", line
    feed, "b" the query "ab" is a subsequence, and the matcher records
    nothing. *)
Lemma find_best_occurrence_not_earliest_containing_span :
  (isubseq (u "ab") (u "xab")
   /\ find_best_occurrence (u "ab") (u "xab")
      = Some (mk_FuzzyMatch 2 1 (u "xab"))
   /\ contains_span (u "ab") (u "xab") 0 3)
  /\ (isubseq (u "ab") ["a"%char; newline; "b"%char]
      /\ find_best_occurrence (u "ab") ["a"%char; newline; "b"%char] = None).
Proof.
  split; [split; [|split; [|split]]|split].
  - apply isubseqb_spec. reflexivity.
  - reflexivity.
  - simpl. lia.
  - apply isubseqb_spec. reflexivity.
  - apply isubseqb_spec. reflexivity.
  - reflexivity.
Qed.

(** C2.  The annotator compares a character of the span with the next
    unconsumed query character exactly, not up to case.  For the word "ABC"
    and the query "abc" the matcher, which ignores case, records the span
    "ABC"; the annotator tags none of its characters as a query character,
    although each equals the next query character up to case. *)
Theorem get_display_compares_case_sensitively :
  find_best_occurrence (u "abc") (u "ABC")
  = Some (mk_FuzzyMatch 3 0 (u "ABC"))
  /\ _get_display (mk_FuzzyMatch 3 0 (u "ABC")) (u "abc")
     = Fragments [("class:fuzzymatch.outside", []);
                  ("class:fuzzymatch.inside", u "A");
                  ("class:fuzzymatch.inside", u "B");
                  ("class:fuzzymatch.inside", u "C");
                  ("class:fuzzymatch.outside", [])]
  /\ Forall2 ieq (u "ABC") (u "abc").
Proof.
  split; [reflexivity|]. split; [reflexivity|].
  repeat constructor.
Qed.

(** C3.  With [sort_results] false the completer still sorts: for the
    candidates "ba", "ab" and the query "a" it yields "ab" before "ba". *)
Theorem get_completions_sorts_when_sort_results_is_false :
  forall document,
    get_word_before_cursor document false = u "a" ->
    exists cs,
      get_completions
        {| words := WordList [PyStr (u "ba"); PyStr (u "ab")];
           meta_dict := ∅; sort_results := false; WORD := false |}
        document = inr cs
      /\ map text cs = [u "ab"; u "ba"].
Proof.
  intros document Hq. eexists.
  rewrite (get_completions_str _ document [u "ba"; u "ab"]) by reflexivity.
  cbn [WORD]. rewrite Hq. split; reflexivity.
Qed.

Lemma get_completions_sorts_when_sort_results_is_false_witness :
  get_word_before_cursor (example_document "a") false = u "a"
  /\ exists cs,
       get_completions
         {| words := WordList [PyStr (u "ba"); PyStr (u "ab")];
            meta_dict := ∅; sort_results := false; WORD := false |}
         (example_document "a") = inr cs
       /\ map text cs = [u "ab"; u "ba"].
Proof.
  split; [reflexivity|].
  apply (get_completions_sorts_when_sort_results_is_false (example_document "a")).
  reflexivity.
Defined.

(** C4.  When [sort_results] is true and the candidates are strings, the
    completions are those of a list of occurrences that is a permutation of
    the occurrences found in candidate order, in which an occurrence with
    an earlier [start_pos] stands before one with a later, and of two with
    the same [start_pos] the one with the smaller [match_length] stands
    first, and in which the occurrences that agree in both [start_pos] and
    [match_length] stand in the order of their candidates. *)
Theorem get_completions_sorted_stable self document ws :
  sort_results self = true ->
  candidates self = map PyStr ws ->
  let q := get_word_before_cursor document (WORD self) in
  let found := omap (find_best_occurrence q) ws in
  exists ranked,
    get_completions self document = inr (map (completion_for self q) ranked)
    /\ ranked ≡ₚ found
    /\ StronglySorted
         (fun a b =>
            start_pos a < start_pos b
            \/ (start_pos a = start_pos b /\ match_length a <= match_length b))
         ranked
    /\ forall start len,
         filter (fun m => start_pos m = start /\ match_length m = len) ranked
         = filter (fun m => start_pos m = start /\ match_length m = len) found.
Proof.
  intros _ Hws q found. exists (sorted sort_key found).
  split; [by apply get_completions_str|].
  split; [apply sorted_Permutation|].
  split; [exact (sorted_sorted sort_key found)|].
  intros start len.
  rewrite !(list_filter_iff
              (fun m => start_pos m = start /\ match_length m = len)
              (fun m => sort_key m = (start, len))).
  - apply sorted_stable.
  - intros m. unfold sort_key. split; [by intros [-> ->]|by intros [= -> ->]].
  - intros m. unfold sort_key. split; [by intros [-> ->]|by intros [= -> ->]].
Qed.

Lemma get_completions_sorted_stable_witness :
  sort_results (example_completer ["xab"; "axxb"; "ab"; "xxab"; "xaxb"; "cab"]) = true
  /\ candidates (example_completer ["xab"; "axxb"; "ab"; "xxab"; "xaxb"; "cab"])
     = map PyStr (map u ["xab"; "axxb"; "ab"; "xxab"; "xaxb"; "cab"])
  /\ (exists ranked,
        get_completions (example_completer ["xab"; "axxb"; "ab"; "xxab"; "xaxb"; "cab"])
          (example_document "ab")
        = inr (map (completion_for
                      (example_completer ["xab"; "axxb"; "ab"; "xxab"; "xaxb"; "cab"])
                      (u "ab"))
                 ranked)
        /\ ranked
           ≡ₚ omap (find_best_occurrence (u "ab"))
                (map u ["xab"; "axxb"; "ab"; "xxab"; "xaxb"; "cab"])
        /\ StronglySorted
             (fun a b =>
                start_pos a < start_pos b
                \/ (start_pos a = start_pos b
                    /\ match_length a <= match_length b))
             ranked
        /\ forall start len,
             filter (fun m => start_pos m = start /\ match_length m = len)
               ranked
             = filter (fun m => start_pos m = start /\ match_length m = len)
                 (omap (find_best_occurrence (u "ab"))
                    (map u ["xab"; "axxb"; "ab"; "xxab"; "xaxb"; "cab"])))
  /\ (exists cs,
        get_completions (example_completer ["xab"; "axxb"; "ab"; "xxab"; "xaxb"; "cab"])
          (example_document "ab") = inr cs
        /\ map text cs = map u ["ab"; "axxb"; "xab"; "cab"; "xaxb"; "xxab"]).
Proof.
  split; [reflexivity|]. split; [reflexivity|]. split.
  - apply (get_completions_sorted_stable
             (example_completer ["xab"; "axxb"; "ab"; "xxab"; "xaxb"; "cab"])
             (example_document "ab")
             (map u ["xab"; "axxb"; "ab"; "xxab"; "xaxb"; "cab"]));
      reflexivity.
  - eexists. split; reflexivity.
Defined.

(** C5.  The texts of the fragments of a display label, concatenated in
    order, are the candidate word, whatever the occurrence and the query. *)
Theorem get_display_round_trip m q :
  fragment_list_to_text (_get_display m q) = word m.
Proof. apply get_display_text. Qed.

(** C6.  For the empty query the matcher records, for every word, the
    occurrence at offset 0 of length 0, and the annotator returns the word
    itself, without fragments. *)
Theorem empty_query_matches_trivially w :
  find_best_occurrence [] w = Some (mk_FuzzyMatch 0 0 w)
  /\ _get_display (mk_FuzzyMatch 0 0 w) [] = PlainText w.
Proof. split; [apply find_best_occurrence_empty|reflexivity]. Qed.

Lemma get_completions_texts self document ws :
  candidates self = map PyStr ws ->
  let q := get_word_before_cursor document (WORD self) in
  exists cs,
    get_completions self document = inr cs
    /\ map text cs
       = map word (sorted sort_key (omap (find_best_occurrence q) ws)).
Proof.
  intros Hws q. eexists. split; [by apply get_completions_str|].
  rewrite map_map. reflexivity.
Qed.

Lemma elem_of_found q ws m :
  m ∈ sorted sort_key (omap (find_best_occurrence q) ws) ->
  word m ∈ ws /\ find_best_occurrence q (word m) = Some m.
Proof.
  rewrite sorted_Permutation, list_elem_of_omap.
  intros (w & Hw & E). by rewrite (find_best_occurrence_word _ _ _ E).
Qed.

(** C7.  On ASCII text: a candidate in which the query does not occur as a
    subsequence has no completion, and the request yields what it yields
    for the other candidates alone; a request over no candidates yields no
    completion.  Neither raises. *)
Theorem get_completions_excludes_non_matching self rest document w ws1 ws2 :
  ascii_text (get_word_before_cursor document (WORD self)) ->
  ascii_text w ->
  ~ isubseq (get_word_before_cursor document (WORD self)) w ->
  candidates self = map PyStr (ws1 ++ w :: ws2) ->
  candidates rest = map PyStr (ws1 ++ ws2) ->
  meta_dict rest = meta_dict self ->
  WORD rest = WORD self ->
  (exists cs,
     get_completions self document = inr cs
     /\ get_completions rest document = inr cs
     /\ w ∉ map text cs)
  /\ (forall none, candidates none = [] -> get_completions none document = inr []).
Proof.
  intros _ _ Hn Hself Hrest Hmeta HWORD. split.
  - rewrite (get_completions_str self document _ Hself).
    rewrite (get_completions_str rest document _ Hrest).
    rewrite HWORD. set (q := get_word_before_cursor document (WORD self)) in *.
    assert (Hw : omap (find_best_occurrence q) (ws1 ++ w :: ws2)
                 = omap (find_best_occurrence q) (ws1 ++ ws2)).
    { rewrite !omap_app. f_equal. cbn [omap list_omap].
      by rewrite (find_best_occurrence_none q w Hn). }
    rewrite Hw. eexists. split; [reflexivity|]. split.
    + f_equal. apply map_ext. intros m. unfold completion_for. by rewrite Hmeta.
    + rewrite map_map. cbn [text completion_for].
      intros Hin. apply list_elem_of_fmap in Hin as (m & -> & Hm).
      apply elem_of_found in Hm as [_ E].
      by rewrite (find_best_occurrence_none q (word m) Hn) in E.
  - intros none Hnone.
    by rewrite (get_completions_str none document [] Hnone).
Qed.

Lemma get_completions_excludes_non_matching_witness :
  ascii_text (get_word_before_cursor (example_document "y")
                (WORD (example_completer ["ay"; "xx"; "y"])))
  /\ ascii_text (u "xx")
  /\ ~ isubseq (get_word_before_cursor (example_document "y")
               (WORD (example_completer ["ay"; "xx"; "y"]))) (u "xx")
  /\ candidates (example_completer ["ay"; "xx"; "y"])
     = map PyStr ([u "ay"] ++ u "xx" :: [u "y"])
  /\ candidates (example_completer ["ay"; "y"]) = map PyStr ([u "ay"] ++ [u "y"])
  /\ meta_dict (example_completer ["ay"; "y"])
     = meta_dict (example_completer ["ay"; "xx"; "y"])
  /\ WORD (example_completer ["ay"; "y"])
     = WORD (example_completer ["ay"; "xx"; "y"])
  /\ (exists cs,
        get_completions (example_completer ["ay"; "xx"; "y"])
          (example_document "y") = inr cs
        /\ get_completions (example_completer ["ay"; "y"])
             (example_document "y") = inr cs
        /\ u "xx" ∉ map text cs)
  /\ (forall none,
        candidates none = [] ->
        get_completions none (example_document "y") = inr []).
Proof.
  assert (Hn : ~ isubseq (get_word_before_cursor (example_document "y")
                            (WORD (example_completer ["ay"; "xx"; "y"])))
                 (u "xx")).
  { rewrite <- isubseqb_spec. discriminate. }
  split; [reflexivity|]. split; [reflexivity|].
  split; [exact Hn|]. do 4 (split; [reflexivity|]).
  apply (get_completions_excludes_non_matching
           (example_completer ["ay"; "xx"; "y"]) (example_completer ["ay"; "y"])
           (example_document "y") (u "xx") [u "ay"] [u "y"]
           eq_refl eq_refl Hn);
    reflexivity.
Defined.

(** C8.  Every completion of a request over strings carries one of the
    candidate words as its text, a start position of minus the length of the
    query, and as display meta-information the entry of the word in
    [meta_dict], the empty string when there is none. *)
Theorem get_completions_fields self document ws :
  candidates self = map PyStr ws ->
  exists cs,
    get_completions self document = inr cs
    /\ Forall (fun c =>
         text c ∈ ws
         /\ start_position c
            = (- Z.of_nat (length (get_word_before_cursor document (WORD self))))%Z
         /\ display_meta c
            = match meta_dict self !! text c with
              | Some meta => meta
              | None => []
              end) cs.
Proof.
  intros Hws. eexists. split; [by apply get_completions_str|].
  apply Forall_forall. intros c Hc.
  apply list_elem_of_fmap in Hc as (m & -> & Hm).
  apply elem_of_found in Hm as [Hin _]. cbn [text start_position display_meta
    completion_for]. split; [done|]. split; [done|].
  by destruct (meta_dict self !! word m).
Qed.

Lemma get_completions_fields_witness :
  candidates (example_completer ["cat"; "dog"; "cod"])
  = map PyStr (map u ["cat"; "dog"; "cod"])
  /\ exists cs,
       get_completions (example_completer ["cat"; "dog"; "cod"])
         (example_document "c") = inr cs
       /\ Forall (fun c =>
            text c ∈ map u ["cat"; "dog"; "cod"]
            /\ start_position c
               = (- Z.of_nat
                      (length (get_word_before_cursor (example_document "c")
                                 (WORD (example_completer ["cat"; "dog"; "cod"])))))%Z
            /\ display_meta c
               = match meta_dict (example_completer ["cat"; "dog"; "cod"])
                         !! text c with
                 | Some meta => meta
                 | None => []
                 end) cs.
Proof.
  split; [reflexivity|].
  apply (get_completions_fields (example_completer ["cat"; "dog"; "cod"])
           (example_document "c") (map u ["cat"; "dog"; "cod"])).
  reflexivity.
Defined.

(** C9.  When the list a candidate source stands for holds an entry that is
    not a string, no request succeeds: a static list fails the assertion of
    the constructor, and for a callable, which the constructor accepts
    unseen, [get_completions] raises [TypeError]; so does [get_completions]
    of any completer that holds the source, however it was built. *)
Theorem non_string_candidates_raise source meta WORD sort_results document :
  Exists (fun w => isinstance_string_types w = false) (resolve source) ->
  match source with
  | WordList _ => __init__ source meta WORD sort_results = inl AssertionError
  | WordCallable _ =>
      exists self,
        __init__ source meta WORD sort_results = inr self
        /\ get_completions self document = inl TypeError
  end
  /\ forall self,
       words self = source -> get_completions self document = inl TypeError.
Proof.
  intros H. split; cycle 1.
  { intros self <-. by apply get_completions_not_str. }
  destruct source as [l|f]; unfold __init__; cbn [callable orb].
  - simpl in H. apply Exists_exists in H as (w & Hin & Hw).
    destruct (forallb isinstance_string_types l) eqn:E; [|done].
    rewrite forallb_forall in E. apply list_elem_of_In in Hin.
    rewrite (E w Hin) in Hw. discriminate.
  - eexists. split; [reflexivity|]. by apply get_completions_not_str.
Qed.

Lemma non_string_candidates_raise_witness :
  Exists (fun w => isinstance_string_types w = false)
    (resolve (WordCallable (fun _ => [PyStr (u "cat"); PyInt 3])))
  /\ (exists self,
        __init__ (WordCallable (fun _ => [PyStr (u "cat"); PyInt 3]))
          None false true = inr self
        /\ get_completions self (example_document "c") = inl TypeError)
  /\ forall self,
       words self = WordCallable (fun _ => [PyStr (u "cat"); PyInt 3]) ->
       get_completions self (example_document "c") = inl TypeError.
Proof.
  assert (H : Exists (fun w => isinstance_string_types w = false)
                (resolve (WordCallable (fun _ => [PyStr (u "cat"); PyInt 3])))).
  { apply Exists_cons_tl, Exists_cons_hd. reflexivity. }
  split; [exact H|].
  exact (non_string_candidates_raise
           (WordCallable (fun _ => [PyStr (u "cat"); PyInt 3]))
           None false true (example_document "c") H).
Defined.

(** C10.  For an occurrence of positive length, the characters the
    annotator tags as query characters, read in order, are a prefix of the
    query, and at most as many fragments carry that tag as the query has
    characters. *)
Theorem get_display_matched_prefix m q :
  0 < match_length m ->
  exists fragments,
    _get_display m q = Fragments fragments
    /\ matched_characters fragments `prefix_of` q
    /\ length (matched_fragments fragments) <= length q.
Proof.
  intros Hl. eexists. split; [apply get_display_fragments; lia|].
  assert (E : matched_fragments
                (("class:fuzzymatch.outside", take (start_pos m) (word m))
                 :: tags (slice (word m) (start_pos m) (match_length m)) q
                 ++ [("class:fuzzymatch.outside",
                      drop (start_pos m + match_length m) (word m))])
              = matched_fragments
                  (tags (slice (word m) (start_pos m) (match_length m)) q)).
  { unfold matched_fragments.
    rewrite filter_cons_False by (simpl; discriminate).
    rewrite filter_app, filter_cons_False by (simpl; discriminate).
    rewrite filter_nil. apply app_nil_r. }
  unfold matched_characters. rewrite E.
  split; [apply tags_matched_prefix|apply tags_matched_length].
Qed.

Lemma get_display_matched_prefix_witness :
  0 < match_length (mk_FuzzyMatch 4 2 (u "leopard"))
  /\ exists fragments,
       _get_display (mk_FuzzyMatch 4 2 (u "leopard")) (u "oar")
       = Fragments fragments
       /\ matched_characters fragments `prefix_of` u "oar"
       /\ length (matched_fragments fragments) <= length (u "oar").
Proof.
  split; [simpl; lia|].
  apply (get_display_matched_prefix (mk_FuzzyMatch 4 2 (u "leopard")) (u "oar")).
  simpl; lia.
Defined.

(** * Further properties of the completer *)

(** ** Shape of the recorded occurrence *)

Lemma isubseq_length q w : isubseq q w -> length q <= length w.
Proof. induction 1; simpl; lia. Qed.

Lemma find_best_occurrence_bounds q w m :
  find_best_occurrence q w = Some m ->
  word m = w
  /\ start_pos m + match_length m <= length w
  /\ length q <= match_length m.
Proof.
  intros E. destruct q as [|c q].
  - rewrite find_best_occurrence_empty in E. injection E as <-. simpl.
    repeat split; lia.
  - split; [by eapply find_best_occurrence_word|].
    apply find_best_occurrence_isubseq in E as [Hb Hs]; [|done].
    split; [done|]. apply isubseq_length in Hs.
    unfold slice in Hs. rewrite length_take, length_drop in Hs. lia.
Qed.

Lemma gapped_trim c q t :
  gapped (c :: q) t ->
  exists t1 t2 y d,
    t = t1 ++ t2 /\ gapped (c :: q) t1
    /\ last t1 = Some y /\ last (c :: q) = Some d /\ ieq d y.
Proof.
  revert c t. induction q as [|c' q IH]; intros c t H;
    apply gapped_inv in H as (gap & x & rest & -> & Hgap & Hx & Hrest).
  - exists (gap ++ [x]), rest, x, c. rewrite <- app_assoc.
    split; [done|]. split; [by constructor; [| |constructor]|].
    by rewrite last_snoc.
  - destruct (IH c' rest Hrest) as (r1 & r2 & y & d & -> & Hr1 & Hy & Hd & Hdy).
    exists (gap ++ x :: r1), r2, y, d.
    split; [by rewrite <- app_assoc|]. split; [by constructor|].
    split; [|by rewrite last_cons_cons].
    apply last_Some in Hy as [r1' ->].
    rewrite app_comm_cons, app_assoc. apply last_snoc.
Qed.

Lemma placed_trim q t :
  placed q t ->
  exists t1 t2 y d,
    t = t1 ++ t2 /\ placed q t1
    /\ last t1 = Some y /\ last q = Some d /\ ieq d y.
Proof.
  destruct 1 as [c q x rest Hx Hrest]. destruct q as [|c' q].
  - exists [x], rest, x, c. split; [done|].
    split; [constructor; [done|constructor]|done].
  - apply gapped_trim in Hrest as (r1 & r2 & y & d & -> & Hr1 & Hy & Hd & Hdy).
    exists (x :: r1), r2, y, d. split; [done|]. split; [by constructor|].
    split; [|by rewrite last_cons_cons].
    apply last_Some in Hy as [r1' ->].
    rewrite app_comm_cons. apply last_snoc.
Qed.

(** X1.  An occurrence the matcher records lies inside its word and is at
    least as long as the query; its length is zero exactly when the query
    is empty. *)
Theorem recorded_occurrence_bounds q w m :
  find_best_occurrence q w = Some m ->
  word m = w
  /\ start_pos m + match_length m <= length w
  /\ length q <= match_length m
  /\ (match_length m = 0 <-> q = []).
Proof.
  intros E. pose proof (find_best_occurrence_bounds q w m E) as (Hw & Hb & Hq).
  repeat split; try done.
  - intros H0. destruct q; [done|simpl in Hq; lia].
  - intros ->. rewrite find_best_occurrence_empty in E. by injection E as <-.
Qed.

Lemma recorded_occurrence_bounds_witness :
  find_best_occurrence (u "oar") (u "dinosaur")
  = Some (mk_FuzzyMatch 5 3 (u "dinosaur"))
  /\ start_pos (mk_FuzzyMatch 5 3 (u "dinosaur"))
     + match_length (mk_FuzzyMatch 5 3 (u "dinosaur"))
     <= length (u "dinosaur")
  /\ length (u "oar") <= match_length (mk_FuzzyMatch 5 3 (u "dinosaur")).
Proof.
  assert (E : find_best_occurrence (u "oar") (u "dinosaur")
              = Some (mk_FuzzyMatch 5 3 (u "dinosaur"))) by reflexivity.
  split; [exact E|].
  destruct (recorded_occurrence_bounds _ _ _ E) as (_ & Hb & Hq & _). by split.
Defined.

(** X2.  On ASCII text: for a non-empty query the recorded span is tight,
    it begins with the first character of the query and ends with its last
    one, both up to case. *)
Theorem occurrence_span_tight q w m :
  ascii_text q ->
  ascii_text w ->
  q <> [] ->
  find_best_occurrence q w = Some m ->
  exists c d x y,
    head q = Some c /\ last q = Some d
    /\ head (slice w (start_pos m) (match_length m)) = Some x
    /\ last (slice w (start_pos m) (match_length m)) = Some y
    /\ ieq c x /\ ieq d y.
Proof.
  intros _ _ Hq E. pose proof (find_best_occurrence_least q w Hq) as H.
  rewrite E in H. destruct H as (_ & Hb & Hv & Hmin).
  pose proof Hv as Hp. unfold valid_span in Hp.
  apply placed_trim in Hp as (t1 & t2 & y & d & Ht & Ht1 & Hy & Hd & Hdy).
  assert (Hlen : length (slice w (start_pos m) (match_length m))
                 = match_length m).
  { unfold slice. rewrite length_take, length_drop. lia. }
  assert (Ht1' : slice w (start_pos m) (length t1) = t1).
  { unfold slice in *.
    assert (Hle : length t1 <= match_length m).
    { rewrite <- Hlen, Ht, length_app. lia. }
    replace (length t1) with (min (length t1) (match_length m)) at 1 by lia.
    rewrite <- take_take, Ht. apply take_app_length. }
  assert (Hv1 : valid_span q w (start_pos m) (length t1)).
  { unfold valid_span. by rewrite Ht1'. }
  apply Hmin in Hv1.
  assert (t2 = []) as ->.
  { apply nil_length_inv. rewrite Ht, length_app in Hlen. lia. }
  rewrite app_nil_r in Ht. rewrite Ht.
  destruct Ht1 as [c q' x rest Hx Hrest].
  exists c, d, x, y. by repeat split.
Qed.

Lemma occurrence_span_tight_witness :
  ascii_text (u "oar")
  /\ ascii_text (u "dinosaur")
  /\ u "oar" <> []
  /\ find_best_occurrence (u "oar") (u "dinosaur")
     = Some (mk_FuzzyMatch 5 3 (u "dinosaur"))
  /\ exists c d x y,
       head (u "oar") = Some c /\ last (u "oar") = Some d
       /\ head (slice (u "dinosaur") 3 5) = Some x
       /\ last (slice (u "dinosaur") 3 5) = Some y
       /\ ieq c x /\ ieq d y.
Proof.
  assert (Hq : u "oar" <> []) by discriminate.
  assert (E : find_best_occurrence (u "oar") (u "dinosaur")
              = Some (mk_FuzzyMatch 5 3 (u "dinosaur"))) by reflexivity.
  split; [reflexivity|]. split; [reflexivity|].
  split; [exact Hq|]. split; [exact E|].
  exact (occurrence_span_tight (u "oar") (u "dinosaur") _
           eq_refl eq_refl Hq E).
Defined.

(** ** The match that is chosen *)

Lemma min_from_first {A} (key : A -> nat * nat) best l :
  Forall (fun x => tuple_ltb (key x) (key best) = false) l ->
  min_from key best l = best.
Proof.
  induction 1 as [|x l Hx _ IH]; simpl; [done|]. by rewrite Hx.
Qed.

Lemma finditer_from_starts r pos s :
  Forall (fun m => pos <= re.start m) (re.finditer_from r pos s)
  /\ StronglySorted (fun a b => re.start a < re.start b)
       (re.finditer_from r pos s).
Proof.
  revert pos. induction s as [|x s IH]; intros pos; simpl.
  - destruct (re.match_here (re.ignorecase r) (re.body r) []);
      repeat constructor.
  - destruct (IH (S pos)) as [Hge Hs].
    assert (Hge' : Forall (fun m => pos <= re.start m)
                     (re.finditer_from r (S pos) s)).
    { eapply Forall_impl; [exact Hge|]. simpl. lia. }
    destruct (re.match_here (re.ignorecase r) (re.body r) (x :: s)); simpl.
    + split; [by constructor|]. constructor; [done|].
      eapply Forall_impl; [exact Hge|]. simpl. lia.
    + by split.
Qed.

(** X3.  [finditer] reports its matches at strictly increasing positions,
    so the minimum over [(start, length)] is always the first match: the
    occurrence recorded for a word is built from the leftmost position at
    which the group matches, and the length never decides. *)
Theorem best_match_is_first_match q w :
  StronglySorted (fun a b => re.start a < re.start b)
    (re.finditer (query_regex q) w)
  /\ find_best_occurrence q w
     = occurrence_of w <$> head (re.finditer (query_regex q) w).
Proof.
  pose proof (finditer_from_starts (query_regex q) 0 w) as [_ Hs].
  split; [exact Hs|].
  unfold find_best_occurrence. rewrite best_in_unfold.
  unfold re.finditer in *.
  destruct (re.finditer_from (query_regex q) 0 w) as [|m0 matches]; [done|].
  apply StronglySorted_cons in Hs as [Hm0 _].
  cbn zeta. rewrite min_from_first; [done|].
  eapply Forall_impl; [exact Hm0|]. intros m Hm.
  apply tuple_ltb_le. unfold tuple_le, match_key. simpl in *. lia.
Qed.

(** ** Case *)

Lemma ieq_sym a b : ieq a b -> ieq b a.
Proof. unfold ieq. congruence. Qed.

Lemma Forall2_ieq_sym s s' : Forall2 ieq s s' -> Forall2 ieq s' s.
Proof. induction 1; constructor; auto using ieq_sym. Qed.

Lemma Forall2_ieq_newline s s' :
  Forall2 ieq s s' ->
  Forall (fun y => y <> newline) s -> Forall (fun y => y <> newline) s'.
Proof.
  induction 1 as [|x x' s s' Hx _ IH]; [done|].
  intros H. apply Forall_cons in H as [Hnl H].
  constructor; [|auto]. eapply ieq_newline_r; [exact Hx|exact Hnl].
Qed.

Lemma gapped_ieq q q' s s' :
  Forall2 ieq q q' -> Forall2 ieq s s' -> gapped q s -> gapped q' s'.
Proof.
  intros Hq Hs H. revert q' s' Hq Hs.
  induction H as [rest|c q gap x rest Hgap Hx _ IH]; intros q' s' Hq Hs.
  - apply Forall2_nil_inv_l in Hq as ->. constructor.
  - apply Forall2_cons_inv_l in Hq as (c' & q'' & Hc & Hq & ->).
    apply Forall2_app_inv_l in Hs as (gap' & t & Hgap' & Ht & ->).
    apply Forall2_cons_inv_l in Ht as (x' & rest' & Hx' & Hrest & ->).
    constructor.
    + by eapply Forall2_ieq_newline.
    + unfold ieq in *. congruence.
    + by apply IH.
Qed.

Lemma placed_ieq q q' s s' :
  Forall2 ieq q q' -> Forall2 ieq s s' -> placed q s -> placed q' s'.
Proof.
  intros Hq Hs H. destruct H as [c q0 x rest Hx Hrest].
  apply Forall2_cons_inv_l in Hq as (c' & q'' & Hc & Hq & ->).
  apply Forall2_cons_inv_l in Hs as (x' & rest' & Hx' & Hs & ->).
  constructor; [unfold ieq in *; congruence|]. by eapply gapped_ieq.
Qed.

Lemma valid_span_ieq q q' w w' s l :
  Forall2 ieq q q' -> Forall2 ieq w w' ->
  valid_span q w s l -> valid_span q' w' s l.
Proof.
  unfold valid_span, slice. intros Hq Hw.
  apply placed_ieq; [done|]. by apply Forall2_take, Forall2_drop.
Qed.

(** X4.  Matching ignores case in the query and in the word: texts that
    are equal up to case give occurrences with the same start and the same
    length, or no occurrence in both cases. *)
Theorem find_best_occurrence_ignores_case q q' w w' :
  Forall2 ieq q q' -> Forall2 ieq w w' ->
  sort_key <$> find_best_occurrence q w
  = sort_key <$> find_best_occurrence q' w'.
Proof.
  intros Hq Hw. destruct Hq as [|c c' q q' Hc Hq].
  { by rewrite !find_best_occurrence_empty. }
  assert (Hqq : Forall2 ieq (c :: q) (c' :: q')) by by constructor.
  pose proof (find_best_occurrence_least (c :: q) w ltac:(done)) as H.
  pose proof (find_best_occurrence_least (c' :: q') w' ltac:(done)) as H'.
  destruct (find_best_occurrence (c :: q) w) as [m|],
           (find_best_occurrence (c' :: q') w') as [m'|]; simpl.
  - destruct H as (_ & _ & Hv & Hmin), H' as (_ & _ & Hv' & Hmin').
    apply (valid_span_ieq _ _ _ _ _ _ Hqq Hw), Hmin' in Hv.
    apply (valid_span_ieq _ _ _ _ _ _ (Forall2_ieq_sym _ _ Hqq)
             (Forall2_ieq_sym _ _ Hw)), Hmin in Hv'.
    unfold sort_key. do 2 f_equal; lia.
  - destruct H as (_ & _ & Hv & _).
    by apply (valid_span_ieq _ _ _ _ _ _ Hqq Hw), H' in Hv.
  - destruct H' as (_ & _ & Hv' & _).
    by apply (valid_span_ieq _ _ _ _ _ _ (Forall2_ieq_sym _ _ Hqq)
                (Forall2_ieq_sym _ _ Hw)), H in Hv'.
  - done.
Qed.

Lemma find_best_occurrence_ignores_case_witness :
  Forall2 ieq (u "oAr") (u "OAR")
  /\ Forall2 ieq (u "LeoPard") (u "leopard")
  /\ sort_key <$> find_best_occurrence (u "oAr") (u "LeoPard")
     = sort_key <$> find_best_occurrence (u "OAR") (u "leopard").
Proof.
  assert (Hq : Forall2 ieq (u "oAr") (u "OAR")) by (repeat constructor).
  assert (Hw : Forall2 ieq (u "LeoPard") (u "leopard")) by (repeat constructor).
  split; [exact Hq|]. split; [exact Hw|].
  exact (find_best_occurrence_ignores_case _ _ _ _ Hq Hw).
Defined.

(** ** Candidates that begin with the query *)

Lemma isubseq_full q w :
  isubseq q w -> length w <= length q -> Forall2 ieq q w.
Proof.
  induction 1 as [w|c q x w Hx H IH|q x w H IH]; simpl; intros Hl.
  - destruct w; [constructor|simpl in Hl; lia].
  - constructor; [done|]. apply IH. lia.
  - apply isubseq_length in H. lia.
Qed.

Lemma istartswith_gapped q w :
  istartswith q w = true -> gapped q (take (length q) w).
Proof.
  revert w. induction q as [|c q IH]; intros w H; [constructor|].
  destruct w as [|x w]; [done|]. simpl in H.
  apply andb_true_iff in H as [Hx H]. apply Ascii.eqb_eq in Hx.
  simpl. apply gapped_here; auto.
Qed.

Lemma istartswith_Forall2 q w :
  Forall2 ieq q (take (length q) w) -> istartswith q w = true.
Proof.
  revert w. induction q as [|c q IH]; intros w H; [done|].
  destruct w as [|x w]; simpl in H; [by apply Forall2_cons_nil_inv in H|].
  apply Forall2_cons in H as [Hx H]. simpl.
  apply andb_true_iff. split; [by apply Ascii.eqb_eq|by apply IH].
Qed.

(** The occurrence at the very start, of the length of the query, is
    recorded exactly for the words that begin with the query. *)
Lemma find_best_occurrence_prefix q w :
  sort_key <$> find_best_occurrence q w = Some (0, length q)
  <-> istartswith q w = true.
Proof.
  destruct q as [|c q].
  { rewrite find_best_occurrence_empty. done. }
  pose proof (find_best_occurrence_least (c :: q) w ltac:(done)) as H.
  pose proof (find_best_occurrence_bounds (c :: q) w) as Hb.
  destruct (find_best_occurrence (c :: q) w) as [m|] eqn:E; split.
  - intros [= Hs Hl]. destruct H as (_ & _ & Hv & _).
    apply valid_span_isubseq in Hv. rewrite Hs, Hl in Hv.
    apply istartswith_Forall2. unfold slice in Hv. rewrite drop_0 in Hv.
    apply isubseq_full; [done|]. rewrite length_take. cbn [length]. lia.
  - intros Hp. destruct H as (_ & _ & _ & Hmin).
    destruct (Hb m eq_refl) as (_ & _ & Hq).
    assert (Hv : valid_span (c :: q) w 0 (length (c :: q))).
    { unfold valid_span, slice. rewrite drop_0.
      destruct w as [|x w]; [done|]. simpl in Hp.
      apply andb_true_iff in Hp as [Hx Hp]. apply Ascii.eqb_eq in Hx.
      simpl. constructor; [done|]. by apply istartswith_gapped. }
    apply Hmin in Hv. unfold sort_key. cbn [length fmap option_fmap option_map] in *.
    assert (start_pos m = 0) as -> by lia.
    assert (match_length m = S (length q)) as -> by lia. done.
  - done.
  - intros Hp. exfalso. apply (H 0 (length (c :: q))).
    unfold valid_span, slice. rewrite drop_0.
    destruct w as [|x w]; [done|]. simpl in Hp.
    apply andb_true_iff in Hp as [Hx Hp]. apply Ascii.eqb_eq in Hx.
    simpl. constructor; [done|]. by apply istartswith_gapped.
Qed.

Lemma sorted_least_first {A} (key : A -> nat * nat) k l :
  StronglySorted (key_le key) l ->
  Forall (fun x => tuple_le k (key x)) l ->
  l = filter (fun x => key x = k) l ++ filter (fun x => key x <> k) l.
Proof.
  induction 1 as [|x l Hl IH Hx]; intros Hk; [done|].
  apply Forall_cons in Hk as [Hkx Hk].
  destruct (decide (key x = k)) as [E|E].
  - rewrite filter_cons_True by done.
    rewrite (filter_cons_False (fun y => key y <> k)) by tauto.
    simpl. f_equal. by apply IH.
  - rewrite filter_cons_False by done.
    rewrite (filter_cons_True (fun y => key y <> k)) by done.
    assert (Hne : Forall (fun y => key y <> k) l).
    { eapply Forall_impl; [exact Hx|]. unfold key_le, tuple_le in *.
      intros y Hy <-. destruct (key x), (key y). simpl in *.
      apply E. f_equal; lia. }
    assert (filter (fun y => key y = k) l = []) as ->.
    { clear -Hne. induction Hne as [|y l Hy _ IH]; [done|].
      by rewrite filter_cons_False. }
    simpl. f_equal. clear -Hne.
    induction Hne as [|y l Hy _ IH]; [done|].
    rewrite filter_cons_True by done. by f_equal.
Qed.

Lemma found_prefix q ws :
  filter (fun m => sort_key m = (0, length q)) (omap (find_best_occurrence q) ws)
  = map (mk_FuzzyMatch (length q) 0)
      (filter (fun w => istartswith q w = true) ws).
Proof.
  induction ws as [|w ws IH]; [done|]. cbn [omap list_omap].
  pose proof (find_best_occurrence_prefix q w) as Hp.
  pose proof (find_best_occurrence_word q w) as Hw.
  destruct (find_best_occurrence q w) as [m|]; simpl in Hp.
  - destruct (decide (sort_key m = (0, length q))) as [E|E].
    + rewrite filter_cons_True by done.
      rewrite (filter_cons_True (fun w => istartswith q w = true))
        by (apply Hp; by f_equal).
      simpl. rewrite IH. f_equal.
      destruct m as [l s w']. specialize (Hw _ eq_refl).
      unfold sort_key in E. simpl in *. by injection E as -> ->; subst.
    + rewrite filter_cons_False by done.
      rewrite (filter_cons_False (fun w => istartswith q w = true)); [done|].
      intros Hs. apply Hp in Hs. congruence.
  - rewrite (filter_cons_False (fun w => istartswith q w = true)); [done|].
    intros Hs. by apply Hp in Hs.
Qed.

(** X5.  On ASCII text: the candidates that begin with the query, up to
    case, come first among the completions, in candidate order and each
    with the occurrence at offset 0 of the length of the query; no later
    completion begins with the query. *)
Theorem prefix_candidates_come_first self document ws :
  candidates self = map PyStr ws ->
  ascii_text (get_word_before_cursor document (WORD self)) ->
  Forall ascii_text ws ->
  let q := get_word_before_cursor document (WORD self) in
  exists others,
    get_completions self document
    = inr (map (fun w => completion_for self q (mk_FuzzyMatch (length q) 0 w))
             (filter (fun w => istartswith q w = true) ws)
           ++ others)
    /\ Forall (fun c => istartswith q (text c) = false) others.
Proof.
  intros Hws _ _ q. rewrite (get_completions_str self document ws Hws). fold q.
  set (found := omap (find_best_occurrence q) ws).
  set (ranked := sorted sort_key found).
  assert (Hin : forall m, m ∈ ranked ->
            find_best_occurrence q (word m) = Some m).
  { intros m Hm. by apply elem_of_found in Hm as [_ E]. }
  exists (map (completion_for self q)
            (filter (fun m => sort_key m <> (0, length q)) ranked)).
  split.
  - rewrite <- (map_map (mk_FuzzyMatch (length q) 0) (completion_for self q)).
    rewrite <- found_prefix. fold found.
    rewrite <- (sorted_stable sort_key _ found). fold ranked.
    rewrite <- map_app. do 2 f_equal.
    apply sorted_least_first; [apply sorted_sorted|].
    apply Forall_forall. intros m Hm. apply Hin in Hm.
    apply find_best_occurrence_bounds in Hm as (_ & _ & Hl).
    unfold tuple_le, sort_key. simpl. lia.
  - apply Forall_forall. intros c Hc.
    apply list_elem_of_fmap in Hc as (m & -> & Hm).
    apply list_elem_of_filter in Hm as [Hne Hm]. apply Hin in Hm.
    cbn [text completion_for]. apply not_true_is_false. intros Hp.
    apply find_best_occurrence_prefix in Hp. rewrite Hm in Hp.
    by injection Hp as Hs Hl; apply Hne; unfold sort_key; f_equal.
Qed.

Lemma prefix_candidates_come_first_witness :
  candidates (example_completer ["xab"; "Bab"; "ab"; "ba"; "abc"])
  = map PyStr (map u ["xab"; "Bab"; "ab"; "ba"; "abc"])
  /\ ascii_text (get_word_before_cursor (example_document "b")
                   (WORD (example_completer
                            ["xab"; "Bab"; "ab"; "ba"; "abc"])))
  /\ Forall ascii_text (map u ["xab"; "Bab"; "ab"; "ba"; "abc"])
  /\ exists others,
       get_completions (example_completer ["xab"; "Bab"; "ab"; "ba"; "abc"])
         (example_document "b")
       = inr (map (fun w =>
                     completion_for
                       (example_completer ["xab"; "Bab"; "ab"; "ba"; "abc"])
                       (u "b") (mk_FuzzyMatch (length (u "b")) 0 w))
                (filter (fun w => istartswith (u "b") w = true)
                   (map u ["xab"; "Bab"; "ab"; "ba"; "abc"]))
              ++ others)
       /\ Forall (fun c => istartswith (u "b") (text c) = false) others.
Proof.
  assert (Hws : Forall ascii_text (map u ["xab"; "Bab"; "ab"; "ba"; "abc"])).
  { repeat (constructor; [reflexivity|]). constructor. }
  split; [reflexivity|]. split; [reflexivity|]. split; [exact Hws|].
  exact (prefix_candidates_come_first
           (example_completer ["xab"; "Bab"; "ab"; "ba"; "abc"])
           (example_document "b") (map u ["xab"; "Bab"; "ab"; "ba"; "abc"])
           eq_refl eq_refl Hws).
Defined.

(** ** Which candidates are completed *)

Lemma find_best_occurrence_is_Some q w :
  Forall (fun y => y <> newline) w ->
  is_Some (find_best_occurrence q w) <-> isubseq q w.
Proof.
  intros Hnl. destruct q as [|c q].
  { rewrite find_best_occurrence_empty. split; [constructor|eauto]. }
  split.
  - intros [m E]. apply find_best_occurrence_isubseq in E as [_ H]; [|done].
    by eapply isubseq_slice.
  - intros H. apply isubseq_valid_span in H as (s & l & Hv); [|done..].
    pose proof (find_best_occurrence_least (c :: q) w ltac:(done)) as Hl.
    destruct (find_best_occurrence (c :: q) w); [eauto|]. by apply Hl in Hv.
Qed.

Lemma found_words q ws :
  map word (omap (find_best_occurrence q) ws)
  = filter (fun w => is_Some (find_best_occurrence q w)) ws.
Proof.
  induction ws as [|w ws IH]; [done|]. cbn [omap list_omap].
  pose proof (find_best_occurrence_word q w) as Hw.
  destruct (find_best_occurrence q w) as [m|] eqn:E.
  - rewrite filter_cons_True by (rewrite E; eauto).
    simpl. by rewrite IH, (Hw m eq_refl).
  - rewrite filter_cons_False; [done|]. rewrite E. by intros [??].
Qed.

(** X6.  On ASCII text: over candidates without line feeds, the texts of
    the completions are, up to order, exactly the candidates in which the
    query occurs as a subsequence up to case, each as often as it is
    listed. *)
Theorem completions_are_the_matching_candidates self document ws :
  candidates self = map PyStr ws ->
  ascii_text (get_word_before_cursor document (WORD self)) ->
  Forall ascii_text ws ->
  Forall (Forall (fun y => y <> newline)) ws ->
  exists cs,
    get_completions self document = inr cs
    /\ map text cs
       ≡ₚ filter (fun w =>
                    isubseqb (get_word_before_cursor document (WORD self)) w
                    = true) ws.
Proof.
  intros Hws _ _ Hnl.
  destruct (get_completions_texts self document ws Hws) as (cs & Hget & Ht).
  exists cs. split; [done|]. rewrite Ht, sorted_Permutation, found_words.
  set (q := get_word_before_cursor document (WORD self)).
  clear -Hnl. induction Hnl as [|w ws Hw _ IH]; [done|].
  pose proof (find_best_occurrence_is_Some q w Hw) as Hs.
  rewrite <- isubseqb_spec in Hs.
  rewrite !filter_cons. repeat case_decide; try tauto; by rewrite IH.
Qed.

Lemma completions_are_the_matching_candidates_witness :
  candidates (example_completer ["leopard"; "gorilla"; "dinosaur"; "cat"])
  = map PyStr (map u ["leopard"; "gorilla"; "dinosaur"; "cat"])
  /\ ascii_text (get_word_before_cursor (example_document "oar")
                   (WORD (example_completer
                            ["leopard"; "gorilla"; "dinosaur"; "cat"])))
  /\ Forall ascii_text (map u ["leopard"; "gorilla"; "dinosaur"; "cat"])
  /\ Forall (Forall (fun y => y <> newline))
       (map u ["leopard"; "gorilla"; "dinosaur"; "cat"])
  /\ exists cs,
       get_completions
         (example_completer ["leopard"; "gorilla"; "dinosaur"; "cat"])
         (example_document "oar") = inr cs
       /\ map text cs
          ≡ₚ filter (fun w =>
                       isubseqb
                         (get_word_before_cursor (example_document "oar")
                            (WORD (example_completer
                                     ["leopard"; "gorilla"; "dinosaur"; "cat"])))
                         w = true)
               (map u ["leopard"; "gorilla"; "dinosaur"; "cat"]).
Proof.
  assert (Hnl : Forall (Forall (fun y => y <> newline))
                  (map u ["leopard"; "gorilla"; "dinosaur"; "cat"])).
  { repeat (constructor; [repeat (constructor; [discriminate|])|]);
      constructor. }
  assert (Hws : Forall ascii_text
                  (map u ["leopard"; "gorilla"; "dinosaur"; "cat"])).
  { repeat (constructor; [reflexivity|]). constructor. }
  split; [reflexivity|]. split; [reflexivity|]. split; [exact Hws|].
  split; [exact Hnl|].
  exact (completions_are_the_matching_candidates
           (example_completer ["leopard"; "gorilla"; "dinosaur"; "cat"])
           (example_document "oar")
           (map u ["leopard"; "gorilla"; "dinosaur"; "cat"])
           eq_refl eq_refl Hws Hnl).
Defined.

(** X7.  Whatever the candidates hold, a request yields no word that is
    not a candidate, and no word more often than the candidates list it:
    there are at most as many completions as candidates. *)
Theorem completions_within_candidates self document ws :
  candidates self = map PyStr ws ->
  exists cs,
    get_completions self document = inr cs
    /\ map text cs ⊆+ ws
    /\ length cs <= length ws.
Proof.
  intros Hws.
  destruct (get_completions_texts self document ws Hws) as (cs & Hget & Ht).
  exists cs. split; [done|].
  assert (Hsub : map text cs ⊆+ ws).
  { rewrite Ht, sorted_Permutation, found_words.
    apply sublist_submseteq, sublist_filter. }
  split; [done|]. apply submseteq_length in Hsub.
  by rewrite length_map in Hsub.
Qed.

Lemma completions_within_candidates_witness :
  candidates (example_completer ["ab"; "xx"; "ab"])
  = map PyStr (map u ["ab"; "xx"; "ab"])
  /\ exists cs,
       get_completions (example_completer ["ab"; "xx"; "ab"])
         (example_document "b") = inr cs
       /\ map text cs ⊆+ map u ["ab"; "xx"; "ab"]
       /\ length cs <= length (map u ["ab"; "xx"; "ab"]).
Proof.
  split; [reflexivity|].
  exact (completions_within_candidates (example_completer ["ab"; "xx"; "ab"])
           (example_document "b") (map u ["ab"; "xx"; "ab"]) eq_refl).
Defined.

(** X8.  Listing the candidates in another order yields the same
    completions, up to order. *)
Theorem completions_of_permuted_candidates self self' document ws ws' :
  candidates self = map PyStr ws ->
  candidates self' = map PyStr ws' ->
  ws ≡ₚ ws' ->
  meta_dict self' = meta_dict self ->
  WORD self' = WORD self ->
  exists cs cs',
    get_completions self document = inr cs
    /\ get_completions self' document = inr cs'
    /\ cs ≡ₚ cs'.
Proof.
  intros Hws Hws' Hperm Hmeta HWORD.
  rewrite (get_completions_str self document ws Hws).
  rewrite (get_completions_str self' document ws' Hws'). rewrite HWORD.
  do 2 eexists. split; [done|]. split; [done|].
  rewrite (map_ext (completion_for self' _) (completion_for self _))
    by (intros m; unfold completion_for; by rewrite Hmeta).
  by rewrite !sorted_Permutation, Hperm.
Qed.

Lemma completions_of_permuted_candidates_witness :
  candidates (example_completer ["ab"; "ba"; "cab"])
  = map PyStr (map u ["ab"; "ba"; "cab"])
  /\ candidates (example_completer ["cab"; "ab"; "ba"])
     = map PyStr (map u ["cab"; "ab"; "ba"])
  /\ map u ["ab"; "ba"; "cab"] ≡ₚ map u ["cab"; "ab"; "ba"]
  /\ meta_dict (example_completer ["cab"; "ab"; "ba"])
     = meta_dict (example_completer ["ab"; "ba"; "cab"])
  /\ WORD (example_completer ["cab"; "ab"; "ba"])
     = WORD (example_completer ["ab"; "ba"; "cab"])
  /\ exists cs cs',
       get_completions (example_completer ["ab"; "ba"; "cab"])
         (example_document "a") = inr cs
       /\ get_completions (example_completer ["cab"; "ab"; "ba"])
            (example_document "a") = inr cs'
       /\ cs ≡ₚ cs'.
Proof.
  assert (Hperm : map u ["ab"; "ba"; "cab"] ≡ₚ map u ["cab"; "ab"; "ba"]).
  { simpl. symmetry. apply Permutation_cons_append. }
  split; [reflexivity|]. split; [reflexivity|]. split; [exact Hperm|].
  split; [reflexivity|]. split; [reflexivity|].
  exact (completions_of_permuted_candidates
           (example_completer ["ab"; "ba"; "cab"])
           (example_completer ["cab"; "ab"; "ba"]) (example_document "a")
           _ _ eq_refl eq_refl Hperm eq_refl eq_refl).
Defined.

(** X9.  Completing again over the words of the completions, in the order
    in which they were yielded, yields the same completions: ranking a
    ranked list changes nothing. *)
Theorem completions_idempotent self document ws :
  candidates self = map PyStr ws ->
  exists cs,
    get_completions self document = inr cs
    /\ get_completions
         {| words := WordList (map PyStr (map text cs));
            meta_dict := meta_dict self;
            sort_results := sort_results self;
            WORD := WORD self |} document
       = inr cs.
Proof.
  intros Hws. rewrite (get_completions_str self document ws Hws).
  eexists. split; [done|].
  erewrite (get_completions_str _ document); [|reflexivity].
  cbn [WORD meta_dict].
  set (q := get_word_before_cursor document (WORD self)).
  set (ranked := sorted sort_key (omap (find_best_occurrence q) ws)).
  assert (Hin : Forall (fun m => find_best_occurrence q (word m) = Some m)
                  ranked).
  { apply Forall_forall. intros m Hm. by apply elem_of_found in Hm as [_ E]. }
  assert (E : omap (find_best_occurrence q)
                (map text (map (completion_for self q) ranked)) = ranked).
  { rewrite map_map. cbn [text completion_for].
    clear -Hin. induction Hin as [|m l Hm _ IH]; [done|].
    cbn [map omap list_omap]. rewrite Hm. by f_equal. }
  rewrite E, sorted_id by apply sorted_sorted. reflexivity.
Qed.

Lemma completions_idempotent_witness :
  candidates (example_completer ["xab"; "ba"; "ab"])
  = map PyStr (map u ["xab"; "ba"; "ab"])
  /\ exists cs,
       get_completions (example_completer ["xab"; "ba"; "ab"])
         (example_document "a") = inr cs
       /\ get_completions
            {| words := WordList (map PyStr (map text cs));
               meta_dict := meta_dict (example_completer ["xab"; "ba"; "ab"]);
               sort_results :=
                 sort_results (example_completer ["xab"; "ba"; "ab"]);
               WORD := WORD (example_completer ["xab"; "ba"; "ab"]) |}
            (example_document "a")
          = inr cs.
Proof.
  split; [reflexivity|].
  exact (completions_idempotent (example_completer ["xab"; "ba"; "ab"])
           (example_document "a") (map u ["xab"; "ba"; "ab"]) eq_refl).
Defined.

(** ** The display labels of a request *)

Lemma matched_fragments_display pre inner post :
  matched_fragments
    (("class:fuzzymatch.outside", pre) :: inner
     ++ [("class:fuzzymatch.outside", post)])
  = matched_fragments inner.
Proof.
  unfold matched_fragments.
  rewrite filter_cons_False by (simpl; discriminate).
  rewrite filter_app, filter_cons_False by (simpl; discriminate).
  rewrite filter_nil. apply app_nil_r.
Qed.

Lemma tags_characters span characters :
  map snd (tags span characters) = map (fun c => [c]) span.
Proof.
  revert characters. induction span as [|c span IH]; intros characters; simpl.
  - done.
  - destruct characters as [|c0 characters]; [|destruct (Ascii.eqb c c0)];
      simpl; by rewrite IH.
Qed.

(** X10.  For an occurrence of positive length the label is the text
    before the span, one fragment for every character of the span, holding
    that character and tagged as inside the match, and the text after the
    span; the outer two are tagged as outside. *)
Theorem get_display_shape m q :
  0 < match_length m ->
  exists inner,
    _get_display m q
    = Fragments
        (("class:fuzzymatch.outside", take (start_pos m) (word m))
         :: inner
         ++ [("class:fuzzymatch.outside",
              drop (start_pos m + match_length m) (word m))])
    /\ map snd inner
       = map (fun c => [c]) (slice (word m) (start_pos m) (match_length m))
    /\ Forall (fun f => f.1 = "class:fuzzymatch.inside"
                        \/ f.1 = "class:fuzzymatch.inside.character") inner.
Proof.
  intros Hl. eexists. split; [apply get_display_fragments; lia|].
  split; [apply tags_characters|apply tags_classes].
Qed.

Lemma get_display_shape_witness :
  0 < match_length (mk_FuzzyMatch 4 2 (u "leopard"))
  /\ exists inner,
       _get_display (mk_FuzzyMatch 4 2 (u "leopard")) (u "oar")
       = Fragments
           (("class:fuzzymatch.outside", u "le") :: inner
            ++ [("class:fuzzymatch.outside", u "d")])
       /\ map snd inner = map (fun c => [c]) (u "opar")
       /\ Forall (fun f => f.1 = "class:fuzzymatch.inside"
                           \/ f.1 = "class:fuzzymatch.inside.character") inner.
Proof.
  split; [simpl; lia|].
  apply (get_display_shape (mk_FuzzyMatch 4 2 (u "leopard")) (u "oar")).
  simpl; lia.
Defined.

(** X11.  The label of every completion spells the text of the
    completion, and it is the plain word, without fragments, exactly when
    the query is empty. *)
Theorem completion_labels self document ws :
  candidates self = map PyStr ws ->
  exists cs,
    get_completions self document = inr cs
    /\ Forall (fun c =>
         fragment_list_to_text (display c) = text c
         /\ (display c = PlainText (text c)
             <-> get_word_before_cursor document (WORD self) = [])) cs.
Proof.
  intros Hws. rewrite (get_completions_str self document ws Hws).
  set (q := get_word_before_cursor document (WORD self)).
  eexists. split; [done|]. apply Forall_forall. intros c Hc.
  apply list_elem_of_fmap in Hc as (m & -> & Hm).
  apply elem_of_found in Hm as [_ E]. cbn [text display completion_for].
  split; [apply get_display_text|].
  apply find_best_occurrence_bounds in E as Hb. destruct Hb as (_ & _ & Hq).
  split.
  - intros Hd. destruct (decide (match_length m = 0)) as [H0|H0].
    + destruct q; [done|simpl in Hq; lia].
    + rewrite get_display_fragments in Hd by done. discriminate.
  - intros Hnil. rewrite Hnil in E |- *.
    rewrite find_best_occurrence_empty in E. by injection E as <-.
Qed.

Lemma completion_labels_witness :
  candidates (example_completer ["cat"; "dog"])
  = map PyStr (map u ["cat"; "dog"])
  /\ exists cs,
       get_completions (example_completer ["cat"; "dog"]) (example_document "")
       = inr cs
       /\ Forall (fun c =>
            fragment_list_to_text (display c) = text c
            /\ (display c = PlainText (text c)
                <-> get_word_before_cursor (example_document "")
                      (WORD (example_completer ["cat"; "dog"])) = [])) cs.
Proof.
  split; [reflexivity|].
  exact (completion_labels (example_completer ["cat"; "dog"])
           (example_document "") (map u ["cat"; "dog"]) eq_refl).
Defined.

Lemma isubseq_sublist q w :
  isubseq q w -> map lower q `sublist_of` map lower w.
Proof.
  induction 1 as [w|c q x w Hx H IH|q x w H IH]; simpl.
  - apply sublist_nil_l.
  - rewrite Hx. by apply sublist_skip.
  - by apply sublist_cons.
Qed.

Lemma unconsumed_sublist span characters :
  characters `sublist_of` span -> unconsumed span characters = [].
Proof.
  revert characters.
  induction span as [|c span IH]; intros characters H.
  - by apply sublist_nil_r in H as ->.
  - destruct characters as [|c0 characters]; [done|]. simpl.
    apply sublist_cons_r in H as [H|(l' & [= -> ->] & H)].
    + destruct (Ascii.eqb c c0) eqn:E; [|by apply IH].
      apply IH. apply sublist_cons_l in H as (k1 & k2 & -> & H).
      by apply sublist_inserts_l, sublist_cons.
    + rewrite Ascii.eqb_refl. by apply IH.
Qed.

Lemma folded_slice w s l : folded w -> folded (slice w s l).
Proof.
  unfold folded, slice. intros H.
  change (lower <$> take l (drop s w) = take l (drop s w)).
  rewrite fmap_take, fmap_drop.
  change (take l (drop s (map lower w)) = take l (drop s w)). by rewrite H.
Qed.

(** X12.  On ASCII text: when neither the query nor the candidates hold a
    capital letter, the label of every completion tags the whole query: the
    characters tagged as query characters, read in order, are the query. *)
Theorem query_fully_highlighted self document ws :
  candidates self = map PyStr ws ->
  ascii_text (get_word_before_cursor document (WORD self)) ->
  Forall ascii_text ws ->
  get_word_before_cursor document (WORD self) <> [] ->
  folded (get_word_before_cursor document (WORD self)) ->
  Forall folded ws ->
  exists cs,
    get_completions self document = inr cs
    /\ Forall (fun c =>
         exists fragments,
           display c = Fragments fragments
           /\ matched_characters fragments
              = get_word_before_cursor document (WORD self)) cs.
Proof.
  intros Hws _ _ Hq Hfq Hfw.
  rewrite (get_completions_str self document ws Hws).
  set (q := get_word_before_cursor document (WORD self)) in *.
  eexists. split; [done|]. apply Forall_forall. intros c Hc.
  apply list_elem_of_fmap in Hc as (m & -> & Hm).
  apply elem_of_found in Hm as [Hin E]. cbn [display completion_for].
  apply find_best_occurrence_bounds in E as Hb. destruct Hb as (_ & _ & Hl).
  apply find_best_occurrence_isubseq in E as [_ Hs]; [|done].
  assert (match_length m <> 0) by (destruct q; [done|simpl in Hl; lia]).
  eexists. split; [by apply get_display_fragments|].
  unfold matched_characters. rewrite matched_fragments_display.
  pose proof (tags_matched (slice (word m) (start_pos m) (match_length m)) q)
    as Ht.
  rewrite unconsumed_sublist, app_nil_r in Ht; [exact Ht|].
  apply isubseq_sublist in Hs. rewrite Hfq in Hs.
  rewrite folded_slice in Hs; [done|].
  by apply (proj1 (Forall_forall _ _) Hfw).
Qed.

Lemma query_fully_highlighted_witness :
  candidates (example_completer ["leopard"; "gorilla"; "dinosaur"])
  = map PyStr (map u ["leopard"; "gorilla"; "dinosaur"])
  /\ ascii_text (get_word_before_cursor (example_document "oar")
                   (WORD (example_completer
                            ["leopard"; "gorilla"; "dinosaur"])))
  /\ Forall ascii_text (map u ["leopard"; "gorilla"; "dinosaur"])
  /\ get_word_before_cursor (example_document "oar")
       (WORD (example_completer ["leopard"; "gorilla"; "dinosaur"])) <> []
  /\ folded (get_word_before_cursor (example_document "oar")
               (WORD (example_completer ["leopard"; "gorilla"; "dinosaur"])))
  /\ Forall folded (map u ["leopard"; "gorilla"; "dinosaur"])
  /\ exists cs,
       get_completions (example_completer ["leopard"; "gorilla"; "dinosaur"])
         (example_document "oar") = inr cs
       /\ Forall (fun c =>
            exists fragments,
              display c = Fragments fragments
              /\ matched_characters fragments
                 = get_word_before_cursor (example_document "oar")
                     (WORD (example_completer
                              ["leopard"; "gorilla"; "dinosaur"]))) cs.
Proof.
  assert (Hq : get_word_before_cursor (example_document "oar")
                 (WORD (example_completer ["leopard"; "gorilla"; "dinosaur"]))
               <> []) by discriminate.
  assert (Hfw : Forall folded (map u ["leopard"; "gorilla"; "dinosaur"])).
  { repeat (constructor; [reflexivity|]). constructor. }
  assert (Hws : Forall ascii_text (map u ["leopard"; "gorilla"; "dinosaur"])).
  { repeat (constructor; [reflexivity|]). constructor. }
  split; [reflexivity|]. split; [reflexivity|]. split; [exact Hws|].
  split; [exact Hq|]. split; [reflexivity|].
  split; [exact Hfw|].
  exact (query_fully_highlighted
           (example_completer ["leopard"; "gorilla"; "dinosaur"])
           (example_document "oar") (map u ["leopard"; "gorilla"; "dinosaur"])
           eq_refl eq_refl Hws Hq eq_refl Hfw).
Defined.

(** ** Requests that raise, and requests that do not *)

Lemma all_strings l :
  Forall (fun w => isinstance_string_types w = true) l ->
  exists ws, l = map PyStr ws.
Proof.
  induction 1 as [|w l Hw _ [ws ->]]; [by exists []|].
  destruct w as [s| |]; try discriminate. by exists (s :: ws).
Qed.

(** X13.  A request raises exactly when some candidate is not a string,
    and then it raises [TypeError]; over strings it yields its completions,
    whatever the query. *)
Theorem get_completions_raises_iff self document :
  match get_completions self document with
  | inr _ => Forall (fun w => isinstance_string_types w = true) (candidates self)
  | inl e =>
      e = TypeError
      /\ Exists (fun w => isinstance_string_types w = false) (candidates self)
  end.
Proof.
  destruct (decide (Exists (fun w => isinstance_string_types w = false)
                      (candidates self))) as [H|H].
  - by rewrite get_completions_not_str.
  - apply not_Exists_Forall in H; [|intros w; apply _].
    assert (Hs : Forall (fun w => isinstance_string_types w = true)
                   (candidates self)).
    { eapply Forall_impl; [exact H|]. intros w Hw. simpl in Hw.
      by destruct (isinstance_string_types w). }
    destruct (all_strings _ Hs) as [ws Hws].
    by rewrite (get_completions_str self document ws Hws).
Qed.

(** X14.  A completer constructed from a list of strings without
    [meta_dict] answers every request without raising, and every completion
    it yields has the empty string as its meta-information. *)
Theorem string_list_completer_total ws WORD sort_results document :
  exists self cs,
    __init__ (WordList (map PyStr ws)) None WORD sort_results = inr self
    /\ get_completions self document = inr cs
    /\ Forall (fun c => display_meta c = []) cs.
Proof.
  assert (E : forallb isinstance_string_types (map PyStr ws) = true).
  { induction ws as [|w ws IH]; [done|exact IH]. }
  unfold __init__. cbn [callable orb]. rewrite E.
  eexists. eexists. split; [reflexivity|].
  split; [by apply (get_completions_str _ document ws)|].
  apply Forall_forall. intros c Hc.
  apply list_elem_of_fmap in Hc as (m & -> & _).
  cbn [display_meta completion_for meta_dict default].
  by rewrite lookup_empty.
Qed.

(** ** Lines *)

Lemma gapped_trim_line c q t :
  Forall (fun y => y <> newline) (c :: q) ->
  gapped (c :: q) t ->
  exists t1 t2,
    t = t1 ++ t2 /\ gapped (c :: q) t1 /\ Forall (fun y => y <> newline) t1.
Proof.
  revert c t. induction q as [|c' q IH]; intros c t Hnl H;
    apply Forall_cons in Hnl as [Hc Hnl];
    apply gapped_inv in H as (gap & x & rest & -> & Hgap & Hx & Hrest).
  - exists (gap ++ [x]), rest. rewrite <- app_assoc. split; [done|].
    split; [by constructor; [| |constructor]|].
    apply Forall_app. split; [done|].
    constructor; [by eapply ieq_newline_r|constructor].
  - destruct (IH c' rest Hnl Hrest) as (r1 & r2 & -> & Hr1 & Hnl1).
    exists (gap ++ x :: r1), r2. split; [by rewrite <- app_assoc|].
    split; [by constructor|].
    apply Forall_app. split; [done|].
    constructor; [by eapply ieq_newline_r|done].
Qed.

Lemma occurrence_span_exact q w m t1 t2 :
  q <> [] ->
  find_best_occurrence q w = Some m ->
  slice w (start_pos m) (match_length m) = t1 ++ t2 ->
  placed q t1 ->
  t2 = [].
Proof.
  intros Hq E Ht Ht1. pose proof (find_best_occurrence_least q w Hq) as H.
  rewrite E in H. destruct H as (_ & Hb & _ & Hmin).
  assert (Hlen : length (slice w (start_pos m) (match_length m))
                 = match_length m).
  { unfold slice. rewrite length_take, length_drop. lia. }
  assert (Hle : length t1 <= match_length m).
  { rewrite <- Hlen, Ht, length_app. lia. }
  assert (Hv1 : valid_span q w (start_pos m) (length t1)).
  { unfold valid_span, slice in *.
    replace (length t1) with (min (length t1) (match_length m)) by lia.
    by rewrite <- take_take, Ht, take_app_length. }
  apply Hmin in Hv1. apply nil_length_inv.
  rewrite Ht, length_app in Hlen. lia.
Qed.

(** X15.  When the query holds no line feed, the span recorded for it
    holds none either: an occurrence never runs across the end of a
    line. *)
Theorem occurrence_within_a_line q w m :
  q <> [] ->
  Forall (fun y => y <> newline) q ->
  find_best_occurrence q w = Some m ->
  Forall (fun y => y <> newline) (slice w (start_pos m) (match_length m)).
Proof.
  intros Hq Hnl E. pose proof (find_best_occurrence_least q w Hq) as H.
  rewrite E in H. destruct H as (_ & _ & Hv & _). unfold valid_span in Hv.
  assert (exists t1 t2,
            slice w (start_pos m) (match_length m) = t1 ++ t2
            /\ placed q t1 /\ Forall (fun y => y <> newline) t1)
    as (t1 & t2 & Ht & Ht1 & Hnl1).
  { destruct Hv as [c q' x rest Hx Hrest].
    apply Forall_cons in Hnl as [Hc Hnl].
    assert (x <> newline) by by eapply ieq_newline_r.
    destruct q' as [|c' q'].
    - exists [x], rest. split; [done|].
      split; [constructor; [done|constructor]|by repeat constructor].
    - destruct (gapped_trim_line c' q' rest Hnl Hrest)
        as (r1 & r2 & -> & Hr1 & Hnl1).
      exists (x :: r1), r2. split; [done|].
      split; by constructor. }
  rewrite Ht, (occurrence_span_exact q w m t1 t2 Hq E Ht Ht1), app_nil_r.
  exact Hnl1.
Qed.

Lemma occurrence_within_a_line_witness :
  u "ab" <> []
  /\ Forall (fun y => y <> newline) (u "ab")
  /\ find_best_occurrence (u "ab") ["a"%char; newline; "a"%char; "b"%char]
     = Some (mk_FuzzyMatch 2 2 ["a"%char; newline; "a"%char; "b"%char])
  /\ Forall (fun y => y <> newline)
       (slice ["a"%char; newline; "a"%char; "b"%char] 2 2).
Proof.
  assert (Hq : u "ab" <> []) by discriminate.
  assert (Hnl : Forall (fun y => y <> newline) (u "ab")).
  { repeat (constructor; [discriminate|]). constructor. }
  assert (E : find_best_occurrence (u "ab")
                ["a"%char; newline; "a"%char; "b"%char]
              = Some (mk_FuzzyMatch 2 2
                        ["a"%char; newline; "a"%char; "b"%char]))
    by reflexivity.
  split; [exact Hq|]. split; [exact Hnl|]. split; [exact E|].
  exact (occurrence_within_a_line _ _ _ Hq Hnl E).
Defined.
